(** * Web analyzer plugin: cache, in-flight tracker and batch orchestration

    A shallow embedding of [WebAnalyzerPlugin] (main.py): the constructor's
    cache settings, the cache helpers [_check_cache] / [_update_cache], the
    per-URL pipeline [_process_single_url] and the batch processor
    [_batch_process_urls] with its [processing_urls] set.

    Python objects are records, [self] is passed explicitly, exceptions are a
    sum type, the collaborators that live in other modules (the web analyzer,
    the language model, the clock) are fields of an environment record. *)

From stdpp Require Import gmap strings list pretty.
From Stdlib Require Import ZArith Lia.

Local Open Scope Z_scope.

#[local] Set Warnings "-clear-no-such-hyp".

(** ** Exceptions *)

(** An [Exception] carries the text that [str(e)] yields. *)
Inductive exn := Exception (msg : string).

Definition str (e : exn) : string := let 'Exception m := e in m.

(** A computation that either raises or returns. *)
Definition res (A : Type) : Type := exn + A.

#[global] Instance res_ret : MRet res := λ A a, inr a.
#[global] Instance res_bind : MBind res := λ A B k m,
  match m with
  | inl e => inl e
  | inr a => k a
  end.

(** The line feed of the Python string literals. *)
Definition LF : string := String (Ascii.ascii_of_nat 10) "".

(** Truthiness of an optional string ([None] and the empty string are
    falsy), as [if not html] and [if not provider_id] test it. *)
Definition truthy (s : option string) : bool :=
  match s with
  | Some s => negb (bool_decide (s = ""))
  | None => false
  end.

(** ** Result and content dictionaries *)

(** The dictionary [{'url': .., 'result': .., 'screenshot': ..}]. *)
Record result_data := ResultData {
  rd_url : string;
  rd_result : string;
  rd_screenshot : option string
}.

(** The dictionary [{'title': .., 'content': .., 'url': ..}] the analyzer
    extracts. *)
Record content_data := ContentData {
  cd_title : string;
  cd_content : string;
  cd_url : string
}.

#[global] Instance result_data_eq_dec : EqDecision result_data.
Proof. solve_decision. Defined.

(** ** The cache manager *)

Module CacheManager.

(** Modelled from the spec: the class [CacheManager] of cache.py is not
    part of the sources at hand; an entry holds the value with its creation
    and expiry times, [expires_at = created_at + ttl]. *)
Record entry := Entry {
  value : result_data;
  created_at : Z;
  expires_at : Z
}.

(** Modelled from the spec: the cache object of cache.py with its capacity
    [max_size], its expiry window [expire_time] and the entries in
    insertion order, oldest first. The clock counts in the unit of
    [expire_time]. *)
Record t := Make {
  max_size : Z;
  expire_time : Z;
  entries : list (string * entry)
}.

(** Modelled from the spec: the constructor [CacheManager(max_size,
    expire_time)] starts with no entry. *)
Definition new (max_size expire_time : Z) : t :=
  {| max_size := max_size; expire_time := expire_time; entries := [] |}.

Definition keys (c : t) : list string := (entries c).*1.

Fixpoint find (k : string) (es : list (string * entry)) : option entry :=
  match es with
  | [] => None
  | (k', e) :: es => if decide (k' = k) then Some e else find k es
  end.

Fixpoint replace (k : string) (e : entry) (es : list (string * entry))
  : list (string * entry) :=
  match es with
  | [] => []
  | (k', e') :: es =>
      if decide (k' = k) then (k', e) :: es else (k', e') :: replace k e es
  end.

(** An entry is valid iff [now < expires_at]. *)
Definition valid (now : Z) (e : entry) : bool := bool_decide (now < expires_at e).

(** Modelled from the spec: [get] of cache.py returns the stored value only
    while [now < expires_at]; an expired entry reads as absent and is left
    in place. *)
Definition get (c : t) (now : Z) (k : string) : option result_data :=
  match find k (entries c) with
  | Some e => if valid now e then Some (value e) else None
  | None => None
  end.

(** Modelled from the spec: [set] of cache.py overwrites an existing key in
    place with fresh times; for a new key it first evicts the single
    oldest-inserted entry when the cache holds [max_size] entries. *)
Definition set (c : t) (now : Z) (k : string) (v : result_data) : t :=
  let e := {| value := v; created_at := now; expires_at := now + expire_time c |} in
  match find k (entries c) with
  | Some _ =>
      {| max_size := max_size c; expire_time := expire_time c;
         entries := replace k e (entries c) |}
  | None =>
      let kept :=
        if decide (Z.of_nat (length (entries c)) = max_size c)
        then tail (entries c) else entries c in
      {| max_size := max_size c; expire_time := expire_time c;
         entries := kept ++ [(k, e)] |}
  end.

(** Modelled from the spec: [clear] of cache.py empties the cache. *)
Definition clear (c : t) : t :=
  {| max_size := max_size c; expire_time := expire_time c; entries := [] |}.

(** Modelled from the spec: [get_stats] of cache.py counts all entries,
    the valid ones and the expired ones, without changing the cache. *)
Definition get_stats (c : t) (now : Z) : nat * nat * nat :=
  let total := length (entries c) in
  let ok := length (filter (λ ke, valid now ke.2 = true) (entries c)) in
  (total, ok, (total - ok)%nat).

(** The mutating operations, to speak of sequences of calls. *)
Inductive op :=
| OpSet (now : Z) (k : string) (v : result_data)
| OpClear.

Definition apply (c : t) (o : op) : t :=
  match o with
  | OpSet now k v => set c now k v
  | OpClear => clear c
  end.

Definition run (c : t) (ops : list op) : t := foldl apply c ops.

(** Every stored value is the result of its own key. *)
Definition well_keyed (c : t) : Prop :=
  ∀ k e, (k, e) ∈ entries c → rd_url (value e) = k.

End CacheManager.

(** ** Configuration *)

(** The [cache_settings] section of the configuration; a missing key is
    [None] and takes the default of the [get] call. *)
Record cache_settings := CacheSettings {
  cs_enable_cache : option bool;
  cs_cache_expire_time : option Z;
  cs_max_cache_size : option Z
}.

(** The configuration keys read by the modelled methods. *)
Record AstrBotConfig := Config {
  cfg_llm_enabled : option bool;
  cfg_llm_provider : option string;
  cfg_enable_screenshot : option bool;
  cfg_enable_translation : option bool;
  cfg_enable_specific_extraction : option bool;
  cfg_cache_settings : option cache_settings
}.

(** ** The plugin object *)

Record WebAnalyzerPlugin := Plugin {
  llm_enabled : bool;
  llm_provider : string;
  enable_screenshot : bool;
  enable_translation : bool;
  enable_specific_extraction : bool;
  enable_cache : bool;
  cache_expire_time : Z;
  max_cache_size : Z;
  cache_manager : CacheManager.t;
  processing_urls : gset string
}.

Definition with_cache_manager (self : WebAnalyzerPlugin) (c : CacheManager.t)
  : WebAnalyzerPlugin :=
  {| llm_enabled := llm_enabled self; llm_provider := llm_provider self;
     enable_screenshot := enable_screenshot self;
     enable_translation := enable_translation self;
     enable_specific_extraction := enable_specific_extraction self;
     enable_cache := enable_cache self;
     cache_expire_time := cache_expire_time self;
     max_cache_size := max_cache_size self;
     cache_manager := c;
     processing_urls := processing_urls self |}.

Definition with_processing_urls (self : WebAnalyzerPlugin) (s : gset string)
  : WebAnalyzerPlugin :=
  {| llm_enabled := llm_enabled self; llm_provider := llm_provider self;
     enable_screenshot := enable_screenshot self;
     enable_translation := enable_translation self;
     enable_specific_extraction := enable_specific_extraction self;
     enable_cache := enable_cache self;
     cache_expire_time := cache_expire_time self;
     max_cache_size := max_cache_size self;
     cache_manager := cache_manager self;
     processing_urls := s |}.

(** [__init__], the part that the modelled methods read. *)
Definition init (config : AstrBotConfig) : WebAnalyzerPlugin :=
  let cache_settings :=
    default (CacheSettings None None None) (cfg_cache_settings config) in
  let enable_cache := default true (cs_enable_cache cache_settings) in
  let cache_expire_time :=
    Z.max 5 (Z.min 10080 (default 1440 (cs_cache_expire_time cache_settings))) in
  let max_cache_size :=
    Z.max 10 (Z.min 1000 (default 100 (cs_max_cache_size cache_settings))) in
  {| llm_enabled := default true (cfg_llm_enabled config);
     llm_provider := default "" (cfg_llm_provider config);
     enable_screenshot := default true (cfg_enable_screenshot config);
     enable_translation := default false (cfg_enable_translation config);
     enable_specific_extraction :=
       default false (cfg_enable_specific_extraction config);
     enable_cache := enable_cache;
     cache_expire_time := cache_expire_time;
     max_cache_size := max_cache_size;
     cache_manager := CacheManager.new max_cache_size cache_expire_time;
     processing_urls := ∅ |}.

(** ** Cache helpers *)

Definition _check_cache (self : WebAnalyzerPlugin) (now : Z) (url : string)
  : option result_data :=
  if negb (enable_cache self) then None
  else CacheManager.get (cache_manager self) now url.

Definition _update_cache (self : WebAnalyzerPlugin) (now : Z) (url : string)
    (result : result_data) : WebAnalyzerPlugin :=
  if negb (enable_cache self) then self
  else with_cache_manager self (CacheManager.set (cache_manager self) now url result).

(** ** Collaborators *)

(** What the analyzer extracts on request: image links, links as text and
    target, code blocks and meta information as key and value. *)
Record specific_content := SpecificContent {
  sc_images : list string;
  sc_links : list (string * string);
  sc_code_blocks : list string;
  sc_meta : list (string * string)
}.

(** The services a pipeline run calls: the [WebAnalyzer] of analyzer.py, the
    language model behind [self.context], and the texts whose wording no
    property below depends on. Each call returns or raises. *)
Record Env := {
  (** [analyzer.fetch_webpage(url)] *)
  fetch_webpage : string → res (option string);
  (** [analyzer.extract_content(html, url)], [None] for a falsy result *)
  extract_content : string → string → res (option content_data);
  (** [analyzer.extract_specific_content(html, url, extract_types)],
      [None] for an empty dictionary *)
  extract_specific_content : string → string → res (option specific_content);
  (** [analyzer.capture_screenshot(url, ...)] *)
  capture_screenshot : string → res (option string);
  (** [hasattr(self.context, 'llm_generate')] *)
  has_llm_generate : bool;
  (** [self.context.get_current_chat_provider_id(umo=umo)] *)
  get_current_chat_provider_id : res (option string);
  (** [self.context.llm_generate(chat_provider_id, prompt)], the completion
      text of the response *)
  llm_generate : string → string → res (option string);
  (** the analysis prompt: the custom template's [format] or the default text *)
  analysis_prompt : content_data → res string;
  (** the translation prompt, likewise *)
  translation_prompt : string → res string;
  (** the report built around a completion text (strip, length limit, title) *)
  format_report : content_data → string → string;
  (** [str.strip] *)
  strip : string → string;
  (** the text of [get_enhanced_analysis] *)
  get_enhanced_analysis : content_data → string
}.

Section Pipeline.

Context (env : Env).

(** The provider id: the configured one, or the current session's. *)
Definition provider_id (self : WebAnalyzerPlugin) : res (option string) :=
  if truthy (Some (llm_provider self)) then mret (Some (llm_provider self))
  else get_current_chat_provider_id env.

Definition analyze_with_llm (self : WebAnalyzerPlugin) (cd : content_data)
  : string :=
  let body : res string :=
    if negb (has_llm_generate env) || negb (llm_enabled self)
    then mret (get_enhanced_analysis env cd)
    else
      provider ← provider_id self;
      if negb (truthy provider) then mret (get_enhanced_analysis env cd)
      else
        prompt ← analysis_prompt env cd;
        llm_resp ← llm_generate env (default "" provider) prompt;
        if truthy llm_resp
        then mret (format_report env cd (default "" llm_resp))
        else mret (get_enhanced_analysis env cd) in
  match body with
  | inr text => text
  | inl e => "❌ LLM分析过程中出现错误: " +:+ str e
  end.

Definition _translate_content (self : WebAnalyzerPlugin) (content : string)
  : string :=
  if negb (enable_translation self) then content
  else
    let body : res string :=
      if negb (has_llm_generate env) then mret content
      else
        provider ← provider_id self;
        if negb (truthy provider) then mret content
        else
          prompt ← translation_prompt env content;
          llm_resp ← llm_generate env (default "" provider) prompt;
          if truthy llm_resp then mret (strip env (default "" llm_resp))
          else mret content in
    match body with
    | inr text => text
    | inl _ => content
    end.

Definition _extract_specific_content (self : WebAnalyzerPlugin)
    (html url : string) : option specific_content :=
  if negb (enable_specific_extraction self) then None
  else
    match extract_specific_content env html url with
    | inr sc => sc
    | inl _ => None
    end.

(** The text appended for a non-empty specific content. *)
Definition specific_content_str (sc : specific_content) : string :=
  let images :=
    match sc_images sc with
    | [] => ""
    | imgs =>
        LF +:+ "📷 图片链接 (" +:+ pretty (length imgs) +:+ "):" +:+ LF
        +:+ String.concat "" ((λ img, "- " +:+ img +:+ LF) <$> imgs)
    end in
  let links :=
    match sc_links sc with
    | [] => ""
    | ls =>
        LF +:+ "🔗 相关链接 (" +:+ pretty (length ls) +:+ "):" +:+ LF
        +:+ String.concat ""
              ((λ l : string * string,
                  "- [" +:+ l.1 +:+ "](" +:+ l.2 +:+ ")" +:+ LF) <$> take 5 ls)
    end in
  let code :=
    match sc_code_blocks sc with
    | [] => ""
    | cs =>
        LF +:+ "💻 代码块 (" +:+ pretty (length cs) +:+ "):" +:+ LF
        +:+ String.concat ""
              ((λ c, "```" +:+ LF +:+ c +:+ LF +:+ "```" +:+ LF) <$> take 2 cs)
    end in
  let meta :=
    match sc_meta sc with
    | [] => ""
    | ms =>
        LF +:+ "📋 元信息:" +:+ LF
        +:+ String.concat ""
              ((λ kv : string * string,
                  if truthy (Some kv.2)
                  then "- " +:+ kv.1 +:+ ": " +:+ kv.2 +:+ LF else "") <$> ms)
    end in
  LF +:+ LF +:+ "**特定内容提取**" +:+ LF +:+ images +:+ links +:+ code +:+ meta.

(** The entry returned when the processing of [url] raised [e]. *)
Definition error_result (url : string) (e : exn) : result_data :=
  {| rd_url := url;
     rd_result :=
       "❌ 处理URL时出错: " +:+ url +:+ LF +:+ "错误信息: " +:+ str e;
     rd_screenshot := None |}.

(** [_process_single_url] after a cache miss: from the fetch to the
    [return], inside the [try]. The cache is written at time [now]. *)
Definition analyze_fresh (self : WebAnalyzerPlugin) (now : Z) (url : string)
  : res (result_data * WebAnalyzerPlugin) :=
  html ← fetch_webpage env url;
  if negb (truthy html) then
    mret ({| rd_url := url;
             rd_result := "❌ 无法抓取网页内容: " +:+ url;
             rd_screenshot := None |}, self)
  else
    let html := default "" html in
    content ← extract_content env html url;
    match content with
    | None =>
        mret ({| rd_url := url;
                 rd_result := "❌ 无法解析网页内容: " +:+ url;
                 rd_screenshot := None |}, self)
    | Some cd =>
        let analysis_result :=
          if enable_translation self then
            let translated_content := _translate_content self (cd_content cd) in
            analyze_with_llm self
              {| cd_title := cd_title cd; cd_content := translated_content;
                 cd_url := cd_url cd |}
          else analyze_with_llm self cd in
        let analysis_result :=
          match _extract_specific_content self html url with
          | Some sc => analysis_result +:+ specific_content_str sc
          | None => analysis_result
          end in
        screenshot ←
          (if enable_screenshot self then capture_screenshot env url
           else mret None);
        let result := {| rd_url := url; rd_result := analysis_result;
                         rd_screenshot := screenshot |} in
        mret (result, _update_cache self now url result)
    end.

(** [_process_single_url]: the cache is read at time [t0]; after a miss the
    pipeline runs and writes the cache at time [t1]. An exception becomes
    an error entry. *)
Definition _process_single_url (self : WebAnalyzerPlugin) (t0 t1 : Z)
    (url : string) : result_data * WebAnalyzerPlugin :=
  let body : res (result_data * WebAnalyzerPlugin) :=
    match _check_cache self t0 url with
    | Some cached_result => mret (cached_result, self)
    | None => analyze_fresh self t1 url
    end in
  match body with
  | inr r => r
  | inl e => (error_result url e, self)
  end.

End Pipeline.

(** ** The batch processor *)

(** One step of the loop that filters the URLs being processed: a URL that
    is not in the set is kept and added to the set. *)
Definition admission_step (acc : list string * gset string) (url : string)
  : list string * gset string :=
  let '(filtered_urls, processing) := acc in
  if decide (url ∈ processing) then (filtered_urls, processing)
  else (filtered_urls ++ [url], {[url]} ∪ processing).

Definition admission (processing : gset string) (urls : list string)
  : list string * gset string :=
  foldl admission_step ([], processing) urls.

(** One step of the loop of the [finally] block. *)
Definition release_step (processing : gset string) (url : string) : gset string :=
  if decide (url ∈ processing) then processing ∖ {[url]} else processing.

Definition release (processing : gset string) (filtered_urls : list string)
  : gset string :=
  foldl release_step processing filtered_urls.

(** A task created for [asyncio.gather]: not yet started, suspended in its
    pipeline after a cache miss, or finished with its result. *)
Inductive task :=
| Pending (url : string)
| Waiting (url : string)
| Done (r : result_data).

(** What is observed of a batch. *)
Inductive event :=
| Enter
| Fetch (url : string)
| Exit
| Send (analysis_results : list result_data).

(** What happens around one batch, beyond the services: whether opening or
    closing the analyzer raises, in which order and at which times the event
    loop runs the tasks (a pair is the index of the task that runs next and
    the time), and whether the batch is cancelled while the results are
    sent. A schedule that ends before every task is done stands for the
    cancellation of the batch at that point. *)
Record Run := {
  aenter_error : option exn;
  schedule : list (nat * Z);
  aexit_error : option exn;
  send_cancelled : bool
}.

Inductive outcome :=
| Skipped
| Sent (analysis_results : list result_data)
| Raised (e : exn)
| Cancelled.

Definition gather_state : Type := WebAnalyzerPlugin * list task * list event.

Section Batch.

Context (env : Env).

(** The event loop runs task [i] at time [now] up to its next suspension:
    a task that has not started reads the cache and either finishes with
    the cached result or calls the analyzer; a suspended task runs its
    pipeline to the end. Between the read and the write of the cache a task
    touches nothing that the tasks share, so the suspensions in between
    have no slot of their own. The result is stored at the task's index. *)
Definition step (st : gather_state) (slot : nat * Z) : gather_state :=
  let '(self, tasks, log) := st in
  let '(i, now) := slot in
  match tasks !! i with
  | Some (Pending url) =>
      match _check_cache self now url with
      | Some cached_result => (self, <[i := Done cached_result]> tasks, log)
      | None => (self, <[i := Waiting url]> tasks, log ++ [Fetch url])
      end
  | Some (Waiting url) =>
      match analyze_fresh env self now url with
      | inr (r, self') => (self', <[i := Done r]> tasks, log)
      | inl e => (self, <[i := Done (error_result url e)]> tasks, log)
      end
  | _ => st
  end.

(** The results of the tasks in the order of the tasks, when all are done. *)
Definition results_of (tasks : list task) : option (list result_data) :=
  mapM (λ t, match t with Done r => Some r | _ => None end) tasks.

(** The [await] of [asyncio.gather] over the tasks. *)
Definition gather (self : WebAnalyzerPlugin) (log : list event)
    (urls : list string) (sched : list (nat * Z))
  : option (list result_data) * WebAnalyzerPlugin * list event :=
  let '(self, tasks, log) := foldl step (self, Pending <$> urls, log) sched in
  (results_of tasks, self, log).

(** The body of the [try] block. *)
Definition process_admitted (self : WebAnalyzerPlugin) (run : Run)
    (filtered_urls : list string) : outcome * WebAnalyzerPlugin * list event :=
  match aenter_error run with
  | Some e => (Raised e, self, [])
  | None =>
      let '(analysis_results, self, log) :=
        gather self [Enter] filtered_urls (schedule run) in
      match analysis_results with
      | None => (Cancelled, self, log ++ [Exit])
      | Some analysis_results =>
          match aexit_error run with
          | Some e => (Raised e, self, log ++ [Exit])
          | None =>
              if send_cancelled run
              then (Cancelled, self, log ++ [Exit; Send analysis_results])
              else (Sent analysis_results, self,
                    log ++ [Exit; Send analysis_results])
          end
      end
  end.

Definition _batch_process_urls (self : WebAnalyzerPlugin) (run : Run)
    (urls : list string) : outcome * WebAnalyzerPlugin * list event :=
  let '(filtered_urls, processing) := admission (processing_urls self) urls in
  let self := with_processing_urls self processing in
  match filtered_urls with
  | [] => (Skipped, self, [])
  | _ =>
      let '(out, self, log) := process_admitted self run filtered_urls in
      (out,
       with_processing_urls self (release (processing_urls self) filtered_urls),
       log)
  end.

(** The URLs a batch admits. *)
Definition admitted (self : WebAnalyzerPlugin) (urls : list string)
  : list string :=
  (admission (processing_urls self) urls).1.

End Batch.

(** ** Notions used in the statements *)

(** The admission loop as a recursion on the rest of the input. *)
Fixpoint admission_rec (processing : gset string) (urls : list string)
  : list string * gset string :=
  match urls with
  | [] => ([], processing)
  | url :: urls =>
      if decide (url ∈ processing) then admission_rec processing urls
      else
        let '(filtered_urls, processing) := admission_rec ({[url]} ∪ processing) urls in
        (url :: filtered_urls, processing)
  end.

(** Two states of the plugin that differ in the cache content and the set of
    URLs being processed only. *)
Definition same_settings (a b : WebAnalyzerPlugin) : Prop :=
  llm_enabled a = llm_enabled b ∧ llm_provider a = llm_provider b ∧
  enable_screenshot a = enable_screenshot b ∧
  enable_translation a = enable_translation b ∧
  enable_specific_extraction a = enable_specific_extraction b ∧
  enable_cache a = enable_cache b ∧
  CacheManager.max_size (cache_manager a) = CacheManager.max_size (cache_manager b) ∧
  CacheManager.expire_time (cache_manager a)
  = CacheManager.expire_time (cache_manager b).

(** The entry a task ends with, given what the code after the cache miss
    returned or raised. *)
Definition entry_of (url : string) (x : res (result_data * WebAnalyzerPlugin))
  : result_data :=
  match x with
  | inr (r, _) => r
  | inl e => error_result url e
  end.

(** How often the schedule [s] has run task [i]. *)
Definition occ (i : nat) (s : list (nat * Z)) : nat :=
  length (filter (λ x : nat * Z, x.1 = i) s).

(** A schedule that runs every one of [n] tasks to its end: every index
    has at least two slots, one to start and one to finish. *)
Definition complete (n : nat) (sched : list (nat * Z)) : bool :=
  forallb (λ i, bool_decide (2 ≤ occ i sched)%nat) (seq 0 n).

(** The schedule that starts all tasks in order at time [t0] and lets them
    finish in order at time [t1]. *)
Definition in_order (n : nat) (t0 t1 : Z) : list (nat * Z) :=
  ((λ i, (i, t0)) <$> seq 0 n) ++ ((λ i, (i, t1)) <$> seq 0 n).

(** [r] is what [_process_single_url] returns for [u] in some state of the
    plugin that satisfies [Q] and has the settings of [self0]. *)
Definition produced (env : Env) (self0 : WebAnalyzerPlugin)
    (Q : WebAnalyzerPlugin → Prop) (u : string) (r : result_data) : Prop :=
  ∃ self t0 t1, same_settings self0 self ∧ Q self ∧
    r = (_process_single_url env self t0 t1 u).1.

(** Every value in the cache of the plugin is an entry for its own key. *)
Definition cache_well_keyed (self : WebAnalyzerPlugin) : Prop :=
  CacheManager.well_keyed (cache_manager self).

Section Invariant.

Context (env : Env) (self0 : WebAnalyzerPlugin) (urls : list string).
Context (Q : WebAnalyzerPlugin → Prop).

(** The state of task [i], for the URL [u], after the slots [s]. *)
Definition task_inv (s : list (nat * Z)) (tasks : list task) (i : nat)
    (u : string) : Prop :=
  (tasks !! i = Some (Pending u) ∧ occ i s = 0%nat)
  ∨ (tasks !! i = Some (Waiting u) ∧ occ i s = 1%nat ∧
     ∃ self t0, same_settings self0 self ∧ Q self ∧ _check_cache self t0 u = None)
  ∨ (∃ r, tasks !! i = Some (Done r) ∧ produced env self0 Q u r).

(** What holds of the plugin and the tasks after the slots [s]. *)
Record gather_inv (s : list (nat * Z)) (self : WebAnalyzerPlugin)
    (tasks : list task) : Prop := {
  gi_settings : same_settings self0 self;
  gi_Q : Q self;
  gi_processing : processing_urls self = processing_urls self0;
  gi_length : length tasks = length urls;
  gi_tasks : ∀ i u, urls !! i = Some u → task_inv s tasks i u
}.

End Invariant.

(** ** Sample data *)

(** A plugin built from a configuration that turns screenshots off and
    leaves the rest at the defaults. *)
Definition sample_config : AstrBotConfig :=
  {| cfg_llm_enabled := None; cfg_llm_provider := Some "provider";
     cfg_enable_screenshot := Some false; cfg_enable_translation := None;
     cfg_enable_specific_extraction := None; cfg_cache_settings := None |}.

Definition sample_plugin : WebAnalyzerPlugin := init sample_config.

(** Services that answer every call: pages are fetched and parsed, no
    language model is attached. *)
Definition sample_env : Env :=
  {| fetch_webpage := λ url, inr (Some ("<html>" +:+ url));
     extract_content := λ html url,
       inr (Some {| cd_title := "title"; cd_content := html; cd_url := url |});
     extract_specific_content := λ _ _, inr None;
     capture_screenshot := λ _, inr None;
     has_llm_generate := false;
     get_current_chat_provider_id := inr None;
     llm_generate := λ _ _, inr None;
     analysis_prompt := λ cd, inr (cd_content cd);
     translation_prompt := λ content, inr content;
     format_report := λ _ text, text;
     strip := λ text, text;
     get_enhanced_analysis := λ cd, "summary of " +:+ cd_url cd |}.

(** Services whose fetch raises for every URL. *)
Definition failing_env : Env :=
  {| fetch_webpage := λ url, inl (Exception "connection refused");
     extract_content := extract_content sample_env;
     extract_specific_content := extract_specific_content sample_env;
     capture_screenshot := capture_screenshot sample_env;
     has_llm_generate := false;
     get_current_chat_provider_id := inr None;
     llm_generate := llm_generate sample_env;
     analysis_prompt := analysis_prompt sample_env;
     translation_prompt := translation_prompt sample_env;
     format_report := format_report sample_env;
     strip := strip sample_env;
     get_enhanced_analysis := get_enhanced_analysis sample_env |}.

(** Services with a language model whose call raises. *)
Definition llm_failing_env : Env :=
  {| fetch_webpage := fetch_webpage sample_env;
     extract_content := extract_content sample_env;
     extract_specific_content := extract_specific_content sample_env;
     capture_screenshot := capture_screenshot sample_env;
     has_llm_generate := true;
     get_current_chat_provider_id := inr None;
     llm_generate := λ _ _, inl (Exception "timeout");
     analysis_prompt := analysis_prompt sample_env;
     translation_prompt := translation_prompt sample_env;
     format_report := format_report sample_env;
     strip := strip sample_env;
     get_enhanced_analysis := get_enhanced_analysis sample_env |}.

(** The sample plugin with the cache turned off. *)
Definition sample_plugin_nocache : WebAnalyzerPlugin :=
  init {| cfg_llm_enabled := None; cfg_llm_provider := Some "provider";
          cfg_enable_screenshot := Some false; cfg_enable_translation := None;
          cfg_enable_specific_extraction := None;
          cfg_cache_settings :=
            Some {| cs_enable_cache := Some false;
                    cs_cache_expire_time := None;
                    cs_max_cache_size := None |} |}.

(** A run without incident under the schedule [sched]. *)
Definition quiet_run (sched : list (nat * Z)) : Run :=
  {| aenter_error := None; schedule := sched; aexit_error := None;
     send_cancelled := false |}.

(** ** Tasks that do not disturb each other *)

Definition is_done (t : task) : bool :=
  match t with
  | Done _ => true
  | _ => false
  end.

(** The number of tasks that are not done. *)
Definition unfinished (tasks : list task) : nat :=
  length (filter (λ t, is_done t = false) tasks).

Section Isolation.

Context (env : Env) (self0 : WebAnalyzerPlugin) (urls : list string).

(** Task [i], for the URL [u], after the slots [s]: it has read the cache
    as it was before the batch, at the time [t] of one of its slots, and
    called the analyzer exactly when that was a miss. *)
Definition task_iso (s : list (nat * Z)) (tasks : list task)
    (log : list event) (i : nat) (u : string) : Prop :=
  (tasks !! i = Some (Pending u) ∧ occ i s = 0%nat ∧ Fetch u ∉ log)
  ∨ (tasks !! i = Some (Waiting u) ∧ occ i s = 1%nat ∧ Fetch u ∈ log ∧
     ∃ t, (i, t) ∈ s ∧ _check_cache self0 t u = None)
  ∨ (∃ r t, tasks !! i = Some (Done r) ∧ (Fetch u ∉ log) ∧
       (i, t) ∈ s ∧ _check_cache self0 t u = Some r)
  ∨ (∃ t, tasks !! i = Some (Done (entry_of u (analyze_fresh env self0 0 u))) ∧
       Fetch u ∈ log ∧ (i, t) ∈ s ∧ _check_cache self0 t u = None).

(** What holds after the slots [s] when no entry that a pending task may
    read is evicted: while a task is pending, the cache has room for the
    entries of all unfinished tasks. *)
Record iso_inv (s : list (nat * Z)) (self : WebAnalyzerPlugin)
    (tasks : list task) (log : list event) : Prop := {
  ii_settings : same_settings self0 self;
  ii_off : enable_cache self0 = false → self = self0;
  ii_length : length tasks = length urls;
  ii_room :
    enable_cache self0 = true →
    (∃ i u, tasks !! i = Some (Pending u)) →
    Z.of_nat (length (CacheManager.entries (cache_manager self)))
    + Z.of_nat (unfinished tasks)
    ≤ CacheManager.max_size (cache_manager self0);
  ii_cache : ∀ i u, tasks !! i = Some (Pending u) →
    ∀ t, _check_cache self t u = _check_cache self0 t u;
  ii_tasks : ∀ i u, urls !! i = Some u → task_iso s tasks log i u;
  ii_log : ∀ u, Fetch u ∈ log → u ∈ urls
}.

End Isolation.

(** An entry for one URL and the sample plugin with that entry in its
    cache, written at time 0. *)
Definition cached_entry : result_data :=
  {| rd_url := "https://b.example"; rd_result := "cached summary";
     rd_screenshot := None |}.

Definition sample_plugin_cached : WebAnalyzerPlugin :=
  _update_cache sample_plugin 0 "https://b.example" cached_entry.

(** ** Sequences of batches *)

(** One batch as it arrives: the services of that moment, what happens
    around the batch, and the URLs. *)
Record batch_call := {
  bc_env : Env;
  bc_run : Run;
  bc_urls : list string
}.

(** The plugin after the batches [calls], one after the other. *)
Definition after_batches (self : WebAnalyzerPlugin) (calls : list batch_call)
  : WebAnalyzerPlugin :=
  foldl (λ self c, (_batch_process_urls (bc_env c) self (bc_run c) (bc_urls c)).1.2)
    self calls.

(** What every state of the plugin satisfies: no URL is left in flight,
    every cache value is an entry for its own key, and the cache is within
    its positive capacity. *)
Definition plugin_ok (self : WebAnalyzerPlugin) : Prop :=
  CacheManager.well_keyed (cache_manager self) ∧
  0 < CacheManager.max_size (cache_manager self) ∧
  Z.of_nat (length (CacheManager.entries (cache_manager self)))
  ≤ CacheManager.max_size (cache_manager self).

(** ** Text primitives of Python *)

(** The methods of [str] and of the standard library that the plugin calls
    and whose tables (case mapping, white space, URL syntax) are not part of
    it. *)
Record Py := {
  (** [s.lower()] *)
  lower : string → string;
  (** [s.strip()] *)
  py_strip : string → string;
  (** [s.split()] *)
  split_ws : string → list string;
  (** [urlparse(url)]: the scheme and the network location, or raises *)
  urlparse : string → res (string * string)
}.

Definition LF_char : Ascii.ascii := Ascii.ascii_of_nat 10.

(** [s.split('\n')] *)
Fixpoint split_lines (s : string) : list string :=
  match s with
  | EmptyString => [""]
  | String c s' =>
      if decide (c = LF_char) then "" :: split_lines s'
      else
        match split_lines s' with
        | line :: lines => String c line :: lines
        | [] => [String c ""]
        end
  end.

(** ['\n'.join(lines)] *)
Definition join_lines (lines : list string) : string := String.concat LF lines.

(** [needle in hay] on strings. *)
Fixpoint is_substring (needle hay : string) : bool :=
  String.prefix needle hay
  || match hay with
     | EmptyString => false
     | String _ hay' => is_substring needle hay'
     end.

(** ** Domain and group lists *)

(** The body shared by [_parse_domain_list] and [_parse_group_list]. *)
Definition parse_lines (py : Py) (text : string) : list string :=
  if decide (text = "") then []
  else filter (λ entry, entry ≠ "") (py_strip py <$> split_lines text).

Definition _parse_domain_list (py : Py) (domain_text : string) : list string :=
  parse_lines py domain_text.

Definition _parse_group_list (py : Py) (group_text : string) : list string :=
  parse_lines py group_text.

(** The attributes of the plugin for access control and delivery, with the
    [group_blacklist] entry of the configuration object. *)
Record Access := {
  allowed_domains : list string;
  blocked_domains : list string;
  group_blacklist : list string;
  auto_analyze : bool;
  merge_forward_enabled : bool;
  screenshot_format : string;
  config_group_blacklist : string
}.

Definition with_group_blacklist (acc : Access) (groups : list string) : Access :=
  {| allowed_domains := allowed_domains acc;
     blocked_domains := blocked_domains acc;
     group_blacklist := groups;
     auto_analyze := auto_analyze acc;
     merge_forward_enabled := merge_forward_enabled acc;
     screenshot_format := screenshot_format acc;
     config_group_blacklist := config_group_blacklist acc |}.

Definition _is_group_blacklisted (acc : Access) (group_id : string) : bool :=
  if bool_decide (group_id = "") || bool_decide (group_blacklist acc = [])
  then false
  else bool_decide (group_id ∈ group_blacklist acc).

Definition _is_domain_allowed (py : Py) (acc : Access) (url : string) : bool :=
  match urlparse py url with
  | inl _ => false
  | inr (_, netloc) =>
      let domain := lower py netloc in
      if existsb (λ blocked_domain, is_substring (lower py blocked_domain) domain)
           (blocked_domains acc)
      then false
      else
        match allowed_domains acc with
        | [] => true
        | allowed =>
            existsb (λ allowed_domain, is_substring (lower py allowed_domain) domain)
              allowed
        end
  end.

(** [_save_group_blacklist]: the list goes to the configuration as lines.
    An exception of [save_config] is logged and swallowed; the entry of the
    configuration object is assigned before. *)
Definition _save_group_blacklist (acc : Access) : Access :=
  {| allowed_domains := allowed_domains acc;
     blocked_domains := blocked_domains acc;
     group_blacklist := group_blacklist acc;
     auto_analyze := auto_analyze acc;
     merge_forward_enabled := merge_forward_enabled acc;
     screenshot_format := screenshot_format acc;
     config_group_blacklist := join_lines (group_blacklist acc) |}.

(** [list.remove(x)]: the first occurrence goes. *)
Fixpoint list_remove (x : string) (l : list string) : list string :=
  match l with
  | [] => []
  | y :: l => if decide (y = x) then l else y :: list_remove x l
  end.

(** The text that lists the blacklist. *)
Definition blacklist_info (groups : list string) : string :=
  "**当前群聊黑名单**" +:+ LF +:+ LF
  +:+ String.concat ""
        (imap (λ i group_id, pretty (S i) +:+ ". " +:+ group_id +:+ LF) groups)
  +:+ LF +:+ "使用 `/group_blacklist add <群号>` 添加群聊到黑名单"
  +:+ LF +:+ "使用 `/group_blacklist remove <群号>` 从黑名单移除群聊"
  +:+ LF +:+ "使用 `/group_blacklist clear` 清空黑名单".

(** [manage_group_blacklist] on the text of the message: the reply and the
    attributes afterwards. *)
Definition manage_group_blacklist (py : Py) (acc : Access) (message_str : string)
  : string * Access :=
  let message_parts := split_ws py (py_strip py message_str) in
  match message_parts with
  | [] | [_] =>
      match group_blacklist acc with
      | [] => ("当前群聊黑名单为空", acc)
      | groups => (blacklist_info groups, acc)
      end
  | _ :: action :: rest =>
      let action := lower py action in
      let group_id := default "" (head rest) in
      if bool_decide (action = "add") && negb (bool_decide (group_id = "")) then
        if bool_decide (group_id ∈ group_blacklist acc)
        then ("群聊 " +:+ group_id +:+ " 已在黑名单中", acc)
        else
          ("✅ 已添加群聊 " +:+ group_id +:+ " 到黑名单",
           _save_group_blacklist
             (with_group_blacklist acc (group_blacklist acc ++ [group_id])))
      else if bool_decide (action = "remove") && negb (bool_decide (group_id = ""))
      then
        if negb (bool_decide (group_id ∈ group_blacklist acc))
        then ("群聊 " +:+ group_id +:+ " 不在黑名单中", acc)
        else
          ("✅ 已从黑名单移除群聊 " +:+ group_id,
           _save_group_blacklist
             (with_group_blacklist acc (list_remove group_id (group_blacklist acc))))
      else if bool_decide (action = "clear") then
        match group_blacklist acc with
        | [] => ("黑名单已为空", acc)
        | _ =>
            ("✅ 已清空群聊黑名单",
             _save_group_blacklist (with_group_blacklist acc []))
        end
      else ("无效的操作，请使用: add <群号>, remove <群号>, clear", acc)
  end.

(** A small Python library for samples, on ASCII text: the letters A to Z
    are lowered, the blank is the space character, a URL has the form
    [scheme://netloc/path]. *)
Definition ascii_lower (c : Ascii.ascii) : Ascii.ascii :=
  let n := Ascii.nat_of_ascii c in
  if (65 <=? n)%nat && (n <=? 90)%nat then Ascii.ascii_of_nat (n + 32) else c.

Fixpoint string_map (f : Ascii.ascii → Ascii.ascii) (s : string) : string :=
  match s with
  | EmptyString => EmptyString
  | String c s => String (f c) (string_map f s)
  end.

Fixpoint lstrip_spaces (s : string) : string :=
  match s with
  | String c s' => if decide (c = Ascii.ascii_of_nat 32) then lstrip_spaces s' else s
  | EmptyString => EmptyString
  end.

Definition strip_spaces (s : string) : string :=
  String.rev (lstrip_spaces (String.rev (lstrip_spaces s))).

Fixpoint before_colon (s : string) : string :=
  match s with
  | EmptyString => EmptyString
  | String c s' => if String.prefix "://" s then EmptyString else String c (before_colon s')
  end.

Fixpoint after_colon (s : string) : string :=
  match s with
  | EmptyString => EmptyString
  | String c s' =>
      if String.prefix "://" s then String.substring 3 (String.length s - 3) s
      else after_colon s'
  end.

Fixpoint before_slash (s : string) : string :=
  match s with
  | EmptyString => EmptyString
  | String c s' => if decide (c = Ascii.ascii_of_nat 47) then EmptyString else String c (before_slash s')
  end.

Definition sample_py : Py :=
  {| lower := string_map ascii_lower;
     py_strip := strip_spaces;
     split_ws := λ s, filter (λ w, w ≠ "") (String.words s);
     urlparse := λ url,
       if is_substring "://" url
       then inr (before_colon url, before_slash (after_colon url))
       else inr ("", "") |}.

(** Attributes for samples: one blocked domain, no list of allowed ones, two
    groups on the blacklist. *)
Definition sample_access : Access :=
  {| allowed_domains := [];
     blocked_domains := ["blocked.example"];
     group_blacklist := ["1001"; "1002"];
     auto_analyze := true;
     merge_forward_enabled := false;
     screenshot_format := "jpeg";
     config_group_blacklist := join_lines ["1001"; "1002"] |}.

(** ** Events, commands and delivery *)

(** An object carried by an event ([message_obj], [raw_message]): its text
    under [str] and its [group_id], when it has one. *)
Record message_object := {
  mo_str : string;
  mo_group_id : option string
}.

(** What the plugin reads of an [AstrMessageEvent]; an attribute that the
    event does not have is [None]. *)
Record AstrMessageEvent := {
  message_str : string;
  has_command : bool;
  ev_group_id : option string;
  message_obj : option message_object;
  raw_message : option message_object;
  get_sender_id : res string
}.

(** The methods of the analyzer that need no session. *)
Record UrlTools := {
  extract_urls : string → list string;
  is_valid_url : string → bool
}.

(** What a command yields: a text, or what the batch processor yields. *)
Inductive reply :=
| PlainResult (text : string)
| BatchResult (out : outcome).

Definition command_result : Type := list reply * WebAnalyzerPlugin * list event.

Section Commands.

Context (py : Py) (tools : UrlTools) (env : Env).

(** The URLs of a message that are valid and whose domain is allowed. *)
Definition allowed_urls_of (acc : Access) (message_text : string) : list string :=
  filter (λ url, _is_domain_allowed py acc url = true)
    (filter (λ url, is_valid_url tools url = true)
       (extract_urls tools message_text)).

Definition analyze_webpage (acc : Access) (self : WebAnalyzerPlugin)
    (event : AstrMessageEvent) (run : Run) : command_result :=
  let message_text := message_str event in
  let urls := extract_urls tools message_text in
  match urls with
  | [] =>
      ([PlainResult "请提供要分析的网页链接，例如：/网页分析 https://example.com"],
       self, [])
  | _ =>
      let valid_urls := filter (λ url, is_valid_url tools url = true) urls in
      match valid_urls with
      | [] => ([PlainResult "无效的URL链接，请检查格式是否正确"], self, [])
      | _ =>
          let allowed_urls :=
            filter (λ url, _is_domain_allowed py acc url = true) valid_urls in
          match allowed_urls with
          | [] =>
              ([PlainResult "所有域名都不在允许访问的列表中，或已被禁止访问"],
               self, [])
          | _ =>
              let notice :=
                match allowed_urls with
                | [url] => "正在分析网页: " +:+ url
                | _ =>
                    "正在分析" +:+ pretty (length allowed_urls) +:+ "个网页链接..."
                end in
              let '(out, self, log) :=
                _batch_process_urls env self run allowed_urls in
              ([PlainResult notice; BatchResult out], self, log)
          end
      end
  end.

(** The words that mark a message as a command of the plugin. *)
Definition command_keywords : list string :=
  ["网页分析"; "/分析"; "/总结"; "/web"; "/analyze"].

(** The text of the raw message, or else of the message object. *)
Definition raw_text (event : AstrMessageEvent) : option string :=
  match raw_message event with
  | Some m => Some (mo_str m)
  | None => mo_str <$> message_obj event
  end.

(** The group of an event as [auto_detect_urls] finds it: on the event, or
    else on the message object, or else on the raw message. *)
Definition auto_group_id (event : AstrMessageEvent) : option string :=
  if truthy (ev_group_id event) then ev_group_id event
  else if truthy (message_obj event ≫= mo_group_id)
  then message_obj event ≫= mo_group_id
  else if truthy (raw_message event ≫= mo_group_id)
  then raw_message event ≫= mo_group_id
  else None.

Definition auto_detect_urls (acc : Access) (self : WebAnalyzerPlugin)
    (event : AstrMessageEvent) (run : Run) : command_result :=
  if negb (auto_analyze acc) then ([], self, [])
  else
    let message_text := py_strip py (message_str event) in
    if String.prefix "/" message_text then ([], self, [])
    else if has_command event then ([], self, [])
    else if truthy (raw_text event)
            && existsb (λ keyword, is_substring keyword (default "" (raw_text event)))
                 command_keywords
    then ([], self, [])
    else
      let group_id := auto_group_id event in
      if truthy group_id && _is_group_blacklisted acc (default "" group_id)
      then ([], self, [])
      else
        let urls := extract_urls tools message_text in
        let valid_urls := filter (λ url, is_valid_url tools url = true) urls in
        let allowed_urls :=
          filter (λ url, _is_domain_allowed py acc url = true) valid_urls in
        match allowed_urls with
        | [] => ([], self, [])
        | _ =>
            let notice :=
              match allowed_urls with
              | [url] => "检测到网页链接，正在分析: " +:+ url
              | _ =>
                  "检测到" +:+ pretty (length allowed_urls)
                  +:+ "个网页链接，正在分析..."
              end in
            let '(out, self, log) :=
              _batch_process_urls env self run allowed_urls in
            ([PlainResult notice; BatchResult out], self, log)
        end.

End Commands.

(** A node of a merged forward message. *)
Record node := Node {
  node_uin : string;
  node_name : string;
  node_text : string
}.

(** A message that [_send_analysis_result] yields. *)
Inductive message :=
| Plain (text : string)
| Image (screenshot : string)
| Nodes (nodes : list node).

(** The group of an event as [_send_analysis_result] finds it: on the event,
    or else on the message object. *)
Definition send_group_id (event : AstrMessageEvent) : option string :=
  if truthy (ev_group_id event) then ev_group_id event
  else if truthy (message_obj event ≫= mo_group_id)
  then message_obj event ≫= mo_group_id
  else None.

(** The image of result [i], when it has a screenshot and the temporary
    file is written ([image_ok i]); a failure there is logged and the image
    is left out. *)
Definition image_of (image_ok : nat → bool) (i : nat) (r : result_data)
  : list message :=
  if truthy (rd_screenshot r) && image_ok i
  then [Image (default "" (rd_screenshot r))] else [].

(** The text sent for result [i] (from 0) of [n]. *)
Definition result_text (n i : nat) (r : result_data) : string :=
  if decide (n = 1%nat) then "网页分析结果：" +:+ LF +:+ rd_result r
  else
    "第" +:+ pretty (S i) +:+ "/" +:+ pretty n +:+ "个网页分析结果：" +:+ LF
    +:+ rd_result r.

(** The two nodes of result [i] (from 0) in a merged forward message. *)
Definition result_nodes (uin : string) (i : nat) (r : result_data) : list node :=
  [ {| node_uin := uin; node_name := "分析结果 " +:+ pretty (S i);
       node_text := "第" +:+ pretty (S i) +:+ "个网页分析结果 - " +:+ rd_url r |};
    {| node_uin := uin; node_name := "详细分析"; node_text := rd_result r |} ].

Definition _send_analysis_result (acc : Access) (event : AstrMessageEvent)
    (image_ok : nat → bool) (analysis_results : list result_data)
  : list message :=
  let n := length analysis_results in
  if truthy (send_group_id event) && merge_forward_enabled acc then
    match get_sender_id event with
    | inl e => [Plain ("❌ 发送分析结果失败: " +:+ str e)]
    | inr uin =>
        let total_title_node :=
          {| node_uin := uin; node_name := "网页分析结果汇总";
             node_text := "共" +:+ pretty n +:+ "个网页分析结果" |} in
        Nodes (total_title_node
               :: concat (imap (result_nodes uin) analysis_results))
        :: concat (imap (image_of image_ok) analysis_results)
    end
  else
    concat (imap (λ i r, Plain (result_text n i r) :: image_of image_ok i r)
              analysis_results).

(** The text of a plain message. *)
Definition plain_text (m : message) : option string :=
  match m with
  | Plain text => Some text
  | _ => None
  end.

(** Tools, an event and a run for samples: the URLs of a message are its
    words that start with [http], all of them valid. *)
Definition sample_tools : UrlTools :=
  {| extract_urls := λ text,
       filter (λ w, String.prefix "http" w = true) (String.words text);
     is_valid_url := λ _, true |}.

Definition sample_event (text : string) (group : option string)
  : AstrMessageEvent :=
  {| message_str := text; has_command := false; ev_group_id := group;
     message_obj := None; raw_message := None;
     get_sender_id := inr "42" |}.

(** ** The settings that [__init__] validates *)

(** The [analysis_settings] section of the configuration. *)
Record analysis_settings := AnalysisSettings {
  as_max_summary_length : option Z;
  as_screenshot_quality : option Z;
  as_screenshot_width : option Z;
  as_screenshot_height : option Z;
  as_screenshot_wait_time : option Z;
  as_screenshot_format : option string
}.

(** The keys of the configuration that [__init__] validates, the cache
    settings apart; a missing key is [None]. *)
Record settings_config := SettingsConfig {
  sc_max_content_length : option Z;
  sc_request_timeout : option Z;
  sc_retry_count : option Z;
  sc_retry_delay : option Z;
  sc_proxy : option string;
  sc_allowed_domains : option string;
  sc_blocked_domains : option string;
  sc_analysis_settings : option analysis_settings;
  sc_group_blacklist : option string;
  sc_auto_analyze : option bool;
  sc_merge_forward_enabled : option bool;
  sc_target_language : option string;
  sc_extract_types : option string
}.

(** The validated attributes of the plugin that are not part of [Access]. *)
Record Settings := {
  max_content_length : Z;
  timeout : Z;
  retry_count : Z;
  retry_delay : Z;
  proxy : string;
  max_summary_length : Z;
  screenshot_quality : Z;
  screenshot_width : Z;
  screenshot_height : Z;
  screenshot_wait_time : Z;
  target_language : string;
  extract_types : list string
}.

Definition valid_languages : list string :=
  ["zh"; "en"; "ja"; "ko"; "fr"; "de"; "es"; "ru"; "ar"; "pt"].

Definition valid_extract_types : list string :=
  ["title"; "content"; "images"; "links"; "tables"; "lists"; "code"; "meta"].

(** The proxy of [__init__]: kept when [urlparse] finds a scheme and a
    network location in it, dropped otherwise and when [urlparse] raises. *)
Definition init_proxy (py : Py) (proxy : string) : string :=
  if bool_decide (proxy ≠ "") then
    match urlparse py proxy with
    | inr (scheme, netloc) =>
        if negb (bool_decide (scheme ≠ "") && bool_decide (netloc ≠ ""))
        then "" else proxy
    | inl _ => ""
    end
  else proxy.

(** The extraction types of [__init__]. *)
Definition init_extract_types (py : Py) (extract_types_text : string)
  : list string :=
  let extract_types :=
    filter (λ t, t ≠ "") (py_strip py <$> split_lines extract_types_text) in
  let invalid_types := filter (λ t, t ∉ valid_extract_types) extract_types in
  let extract_types :=
    if bool_decide (invalid_types ≠ [])
    then filter (λ t, t ∈ valid_extract_types) extract_types
    else extract_types in
  let extract_types :=
    if bool_decide (extract_types = []) then ["title"; "content"]
    else extract_types in
  if bool_decide ("meta" ∉ extract_types) then extract_types ++ ["meta"]
  else extract_types.

(** The screenshot format of [__init__]. *)
Definition init_screenshot_format (py : Py) (config : settings_config)
  : string :=
  let analysis_settings :=
    default (AnalysisSettings None None None None None None)
            (sc_analysis_settings config) in
  let screenshot_format :=
    lower py (default "jpeg" (as_screenshot_format analysis_settings)) in
  if bool_decide (screenshot_format ∉ ["jpeg"; "png"]) then "jpeg"
  else screenshot_format.

(** [__init__], the attributes that the access checks and the delivery
    read. *)
Definition init_access (py : Py) (config : settings_config) : Access :=
  {| allowed_domains :=
       _parse_domain_list py (default "" (sc_allowed_domains config));
     blocked_domains :=
       _parse_domain_list py (default "" (sc_blocked_domains config));
     group_blacklist :=
       _parse_group_list py (default "" (sc_group_blacklist config));
     auto_analyze := default true (sc_auto_analyze config);
     merge_forward_enabled := default false (sc_merge_forward_enabled config);
     screenshot_format := init_screenshot_format py config;
     config_group_blacklist := default "" (sc_group_blacklist config) |}.

(** [__init__], the other settings that it validates. *)
Definition init_settings (py : Py) (config : settings_config) : Settings :=
  let analysis_settings :=
    default (AnalysisSettings None None None None None None)
            (sc_analysis_settings config) in
  let target_language := lower py (default "zh" (sc_target_language config)) in
  {| max_content_length :=
       Z.max 1000 (default 10000 (sc_max_content_length config));
     timeout := Z.max 5 (Z.min 300 (default 30 (sc_request_timeout config)));
     retry_count := Z.max 0 (Z.min 10 (default 3 (sc_retry_count config)));
     retry_delay := Z.max 0 (Z.min 10 (default 2 (sc_retry_delay config)));
     proxy := init_proxy py (default "" (sc_proxy config));
     max_summary_length :=
       Z.max 500
         (Z.min 10000
            (default 2000 (as_max_summary_length analysis_settings)));
     screenshot_quality :=
       Z.max 10
         (Z.min 100 (default 80 (as_screenshot_quality analysis_settings)));
     screenshot_width :=
       Z.max 320
         (Z.min 4096 (default 1280 (as_screenshot_width analysis_settings)));
     screenshot_height :=
       Z.max 240
         (Z.min 4096 (default 720 (as_screenshot_height analysis_settings)));
     screenshot_wait_time :=
       Z.max 0
         (Z.min 10000
            (default 2000 (as_screenshot_wait_time analysis_settings)));
     target_language :=
       if bool_decide (target_language ∉ valid_languages) then "zh"
       else target_language;
     extract_types :=
       init_extract_types py
         (default ("title" +:+ LF +:+ "content") (sc_extract_types config)) |}.

(** ** What a task of a batch may end with *)

(** [r] is a value that the cache of [self] holds under the key [url],
    the cache being in use. *)
Definition cached_before (self : WebAnalyzerPlugin) (url : string)
    (r : result_data) : Prop :=
  enable_cache self = true ∧
  ∃ e, (url, e) ∈ CacheManager.entries (cache_manager self) ∧
    r = CacheManager.value e.

(** [r] is the entry of [url] alone: a value cached for it in [self0], or
    what the code after the cache miss returns for it (the error entry when
    it raises). *)
Definition own_entry (env : Env) (self0 : WebAnalyzerPlugin) (url : string)
    (r : result_data) : Prop :=
  cached_before self0 url r ∨ r = entry_of url (analyze_fresh env self0 0 url).

(** What holds of the plugin and the tasks of [gather] over [urls], started
    from [self0], whatever the slots so far: the cache holds what it held at
    the start and entries that the pipeline made for their own key, and a
    finished task holds the entry of its own URL. *)
Record sibling_inv (env : Env) (self0 : WebAnalyzerPlugin)
    (urls : list string) (self : WebAnalyzerPlugin) (tasks : list task)
  : Prop := {
  si_settings : same_settings self0 self;
  si_length : length tasks = length urls;
  si_cache : ∀ k e,
    (k, e) ∈ CacheManager.entries (cache_manager self) →
    (k, e) ∈ CacheManager.entries (cache_manager self0) ∨
    CacheManager.value e = entry_of k (analyze_fresh env self0 0 k);
  si_url : ∀ i u,
    tasks !! i = Some (Pending u) ∨ tasks !! i = Some (Waiting u) →
    urls !! i = Some u;
  si_done : ∀ i u r,
    urls !! i = Some u → tasks !! i = Some (Done r) → own_entry env self0 u r
}.

(** Services whose fetch raises for one URL and answers for the others. *)
Definition one_failing_env : Env :=
  {| fetch_webpage := λ url,
       if decide (url = "https://a.example")
       then inl (Exception "connection refused")
       else fetch_webpage sample_env url;
     extract_content := extract_content sample_env;
     extract_specific_content := extract_specific_content sample_env;
     capture_screenshot := capture_screenshot sample_env;
     has_llm_generate := false;
     get_current_chat_provider_id := inr None;
     llm_generate := llm_generate sample_env;
     analysis_prompt := analysis_prompt sample_env;
     translation_prompt := translation_prompt sample_env;
     format_report := format_report sample_env;
     strip := strip sample_env;
     get_enhanced_analysis := get_enhanced_analysis sample_env |}.

(** Services with a language model whose call raises for a translation
    prompt and answers an analysis prompt, and with screenshots. *)
Definition translation_failing_env : Env :=
  {| fetch_webpage := fetch_webpage sample_env;
     extract_content := extract_content sample_env;
     extract_specific_content := extract_specific_content sample_env;
     capture_screenshot := λ _, inr (Some "png");
     has_llm_generate := true;
     get_current_chat_provider_id := inr None;
     llm_generate := λ _ prompt,
       if String.prefix "translate: " prompt
       then inl (Exception "timeout") else inr (Some "a summary");
     analysis_prompt := λ cd, inr ("analyze: " +:+ cd_content cd);
     translation_prompt := λ content, inr ("translate: " +:+ content);
     format_report := format_report sample_env;
     strip := strip sample_env;
     get_enhanced_analysis := get_enhanced_analysis sample_env |}.

(** A plugin that translates, takes screenshots and has a provider. *)
Definition translating_plugin : WebAnalyzerPlugin :=
  init {| cfg_llm_enabled := None; cfg_llm_provider := Some "provider";
          cfg_enable_screenshot := Some true;
          cfg_enable_translation := Some true;
          cfg_enable_specific_extraction := None;
          cfg_cache_settings := None |}.

(** * Properties *)

(** ** Admission and release *)

Lemma foldl_admission_step acc processing urls :
  foldl admission_step (acc, processing) urls
  = (acc ++ (admission_rec processing urls).1, (admission_rec processing urls).2).
Proof.
  revert acc processing.
  induction urls as [|url urls IH]; intros acc processing; simpl.
  - by rewrite app_nil_r.
  - destruct (decide (url ∈ processing)) as [Hin|Hout]; [apply IH|].
    rewrite IH.
    destruct (admission_rec ({[url]} ∪ processing) urls) as [f p]; simpl.
    by rewrite <- app_assoc.
Qed.

Lemma admission_admission_rec processing urls :
  admission processing urls = admission_rec processing urls.
Proof.
  unfold admission. rewrite foldl_admission_step. simpl.
  by destruct (admission_rec processing urls).
Qed.

Lemma admission_rec_elem processing urls k :
  k ∈ (admission_rec processing urls).1 ↔ k ∈ urls ∧ k ∉ processing.
Proof.
  revert processing.
  induction urls as [|url urls IH]; intros processing; simpl.
  - set_solver.
  - destruct (decide (url ∈ processing)) as [Hin|Hout].
    + rewrite IH. set_solver.
    + specialize (IH ({[url]} ∪ processing)).
      destruct (admission_rec ({[url]} ∪ processing) urls) as [f p]; simpl in *.
      rewrite elem_of_cons, IH. set_unfold.
      destruct (decide (k = url)); naive_solver.
Qed.

Lemma admission_rec_NoDup processing urls :
  NoDup (admission_rec processing urls).1.
Proof.
  revert processing.
  induction urls as [|url urls IH]; intros processing; simpl.
  - constructor.
  - destruct (decide (url ∈ processing)) as [Hin|Hout]; [apply IH|].
    pose proof (IH ({[url]} ∪ processing)) as Hnd.
    pose proof (admission_rec_elem ({[url]} ∪ processing) urls url) as Hel.
    destruct (admission_rec ({[url]} ∪ processing) urls) as [f p]; simpl in *.
    constructor; [|done]. rewrite Hel. set_solver.
Qed.

Lemma admission_rec_sublist processing urls :
  (admission_rec processing urls).1 `sublist_of` urls.
Proof.
  revert processing.
  induction urls as [|url urls IH]; intros processing; simpl.
  - constructor.
  - destruct (decide (url ∈ processing)) as [Hin|Hout].
    + by apply sublist_cons.
    + specialize (IH ({[url]} ∪ processing)).
      destruct (admission_rec ({[url]} ∪ processing) urls) as [f p]; simpl in *.
      by apply sublist_skip.
Qed.

Lemma admission_rec_processing processing urls :
  (admission_rec processing urls).2
  = processing ∪ list_to_set (admission_rec processing urls).1.
Proof.
  revert processing.
  induction urls as [|url urls IH]; intros processing; simpl.
  - set_solver.
  - destruct (decide (url ∈ processing)) as [Hin|Hout]; [apply IH|].
    specialize (IH ({[url]} ∪ processing)).
    destruct (admission_rec ({[url]} ∪ processing) urls) as [f p]; simpl in *.
    set_solver.
Qed.

Lemma release_difference processing filtered_urls :
  release processing filtered_urls = processing ∖ list_to_set filtered_urls.
Proof.
  revert processing.
  induction filtered_urls as [|url l IH]; intros processing; simpl.
  - set_solver.
  - unfold release in *. simpl. rewrite IH. unfold release_step.
    destruct (decide (url ∈ processing)); set_solver.
Qed.

(** Releasing what a batch admitted gives back the set from before. *)
Lemma release_admission processing urls :
  release (admission processing urls).2 (admission processing urls).1 = processing.
Proof.
  rewrite admission_admission_rec, release_difference, admission_rec_processing.
  pose proof (admission_rec_elem processing urls) as Hel.
  set_solver.
Qed.

Lemma release_admitted self urls :
  release (processing_urls self ∪ list_to_set (admitted self urls))
    (admitted self urls)
  = processing_urls self.
Proof.
  pose proof (release_admission (processing_urls self) urls) as H.
  rewrite admission_admission_rec in H. rewrite admission_rec_processing in H.
  unfold admitted. by rewrite admission_admission_rec.
Qed.

Lemma with_processing_urls_id self :
  with_processing_urls self (processing_urls self) = self.
Proof. by destruct self. Qed.

(** ** Settings are fixed during a batch *)

Lemma same_settings_refl a : same_settings a a.
Proof. by repeat split. Qed.

Lemma same_settings_trans a b c :
  same_settings a b → same_settings b c → same_settings a c.
Proof. unfold same_settings. intros. destruct_and!. repeat split; congruence. Qed.

Lemma same_settings_update_cache self now url r :
  same_settings self (_update_cache self now url r).
Proof.
  unfold _update_cache, CacheManager.set.
  destruct (enable_cache self) eqn:Hc; simpl; [|apply same_settings_refl].
  by destruct (CacheManager.find url _); repeat split.
Qed.

Lemma processing_urls_update_cache self now url r :
  processing_urls (_update_cache self now url r) = processing_urls self.
Proof. unfold _update_cache. by destruct (enable_cache self). Qed.

(** ** The pipeline of one URL *)

Lemma analyze_with_llm_settings env a b cd :
  same_settings a b → analyze_with_llm env a cd = analyze_with_llm env b cd.
Proof.
  intros (Hl & Hp & _). unfold analyze_with_llm, provider_id.
  by rewrite Hl, Hp.
Qed.

Lemma _translate_content_settings env a b content :
  same_settings a b → _translate_content env a content = _translate_content env b content.
Proof.
  intros (_ & Hp & _ & Ht & _). unfold _translate_content, provider_id.
  by rewrite Hp, Ht.
Qed.

Lemma _extract_specific_content_settings env a b html url :
  same_settings a b →
  _extract_specific_content env a html url = _extract_specific_content env b html url.
Proof.
  intros (_ & _ & _ & _ & Hs & _). unfold _extract_specific_content.
  by rewrite Hs.
Qed.

(** The entry does not depend on the cache content, on the URLs in flight or
    on the time. *)
Lemma analyze_fresh_settings env a b now now' url :
  same_settings a b →
  entry_of url (analyze_fresh env a now url)
  = entry_of url (analyze_fresh env b now' url).
Proof.
  intros Hs. unfold analyze_fresh.
  destruct (fetch_webpage env url) as [e|html]; simpl; [done|].
  destruct (truthy html); simpl; [|done].
  destruct (extract_content env (default "" html) url) as [e|[cd|]]; simpl; try done.
  rewrite (_translate_content_settings env a b) by done.
  rewrite (_extract_specific_content_settings env a b) by done.
  rewrite !(analyze_with_llm_settings env a b) by done.
  destruct Hs as (_ & _ & Hsc & Ht & _). rewrite Hsc, Ht.
  destruct (enable_screenshot b); simpl; [|done].
  by destruct (capture_screenshot env url).
Qed.

(** A pipeline run that returns gives an entry for its URL, and changes the
    plugin by at most one cache update for that URL. *)
Lemma analyze_fresh_inr env self now url r self' :
  analyze_fresh env self now url = inr (r, self') →
  rd_url r = url ∧ (self' = self ∨ self' = _update_cache self now url r).
Proof.
  unfold analyze_fresh.
  destruct (fetch_webpage env url) as [e|html]; simpl; [done|].
  destruct (truthy html); simpl; [|intros [= <- <-]; eauto].
  destruct (extract_content env (default "" html) url) as [e|[cd|]]; simpl;
    [done| |intros [= <- <-]; eauto].
  destruct (if enable_screenshot self then _ else _) as [e|shot]; simpl; [done|].
  intros [= <- <-]. eauto.
Qed.

Lemma error_result_shape url e :
  rd_url (error_result url e) = url ∧
  String.prefix "❌" (rd_result (error_result url e)) = true ∧
  rd_screenshot (error_result url e) = None.
Proof. done. Qed.

(** An exception raised after the cache miss is caught and becomes the error
    entry; the plugin is left as it was. *)
Lemma _process_single_url_raise env self t0 t1 url e :
  _check_cache self t0 url = None →
  analyze_fresh env self t1 url = inl e →
  _process_single_url env self t0 t1 url = (error_result url e, self).
Proof. intros Hc Hf. unfold _process_single_url. by rewrite Hc, Hf. Qed.

Lemma _process_single_url_miss env self t0 t1 url :
  _check_cache self t0 url = None →
  (_process_single_url env self t0 t1 url).1
  = entry_of url (analyze_fresh env self t1 url).
Proof.
  intros Hc. unfold _process_single_url. rewrite Hc.
  by destruct (analyze_fresh env self t1 url) as [e|[r s]].
Qed.

Lemma _process_single_url_hit env self t0 t1 url cached :
  _check_cache self t0 url = Some cached →
  _process_single_url env self t0 t1 url = (cached, self).
Proof. intros Hc. unfold _process_single_url. by rewrite Hc. Qed.

(** ** Invariants of [gather] *)

Lemma occ_snoc i s j t :
  occ i (s ++ [(j, t)]) = (occ i s + (if decide (j = i) then 1 else 0))%nat.
Proof.
  unfold occ. rewrite filter_app, length_app. f_equal.
  rewrite filter_cons, filter_nil. simpl. by destruct (decide (j = i)).
Qed.

Section GatherInvariant.

Context (env : Env) (self0 : WebAnalyzerPlugin) (urls : list string).
Context (Q : WebAnalyzerPlugin → Prop).
Abbreviation task_inv := (task_inv env self0 Q).
Abbreviation gather_inv := (gather_inv env self0 urls Q).
Hypothesis Q_update : ∀ self now url r,
  Q self → rd_url r = url → Q (_update_cache self now url r).

Lemma gather_inv_init : Q self0 → gather_inv [] self0 (Pending <$> urls).
Proof.
  intros HQ.
  split; [apply same_settings_refl|done|done|by rewrite length_fmap|].
  intros i u Hu. left. by rewrite list_lookup_fmap, Hu.
Qed.

Lemma task_inv_other s tasks i u j t x :
  j ≠ i → task_inv s tasks i u → task_inv (s ++ [(j, t)]) (<[j := x]> tasks) i u.
Proof.
  intros Hne. unfold task_inv.
  rewrite occ_snoc, list_lookup_insert_ne by done.
  destruct (decide (j = i)); [done|]. by rewrite Nat.add_0_r.
Qed.

Lemma task_inv_skip s tasks i u j t :
  (j ≠ i ∨ ∃ r, tasks !! i = Some (Done r)) →
  task_inv s tasks i u → task_inv (s ++ [(j, t)]) tasks i u.
Proof.
  intros Hcase Hinv. unfold task_inv in *. rewrite occ_snoc.
  destruct Hcase as [Hne|[r Hr]].
  - destruct (decide (j = i)); [done|]. by rewrite Nat.add_0_r.
  - rewrite Hr in *. destruct Hinv as [[? _]|[[? _]|?]]; [done|done|].
    by right; right.
Qed.

Lemma gather_inv_step s self tasks log slot :
  gather_inv s self tasks →
  let '(self', tasks', _) := step env (self, tasks, log) slot in
  gather_inv (s ++ [slot]) self' tasks'.
Proof.
  intros [Hs HQ Hp Hlen Ht]. destruct slot as [j now]. unfold step.
  destruct (tasks !! j) as [tj|] eqn:Hj; cycle 1.
  { split; try done. intros i u Hu. apply task_inv_skip; [|by apply Ht].
    left. intros ->. apply lookup_lt_Some in Hu. apply lookup_ge_None in Hj. lia. }
  assert (∃ uj, urls !! j = Some uj) as [uj Huj].
  { apply lookup_lt_is_Some. rewrite <- Hlen. by eapply lookup_lt_Some. }
  pose proof (Ht j uj Huj) as Hjinv.
  destruct tj as [u'|u'|r'].
  - (* the task starts *)
    destruct Hjinv as [[Heq Hocc]|[[Heq _]|(r & Heq & _)]];
      rewrite Hj in Heq; try done. injection Heq as ->.
    destruct (_check_cache self now uj) as [cached|] eqn:Hc.
    + split; try done; [by rewrite length_insert|].
      intros i u Hu. destruct (decide (j = i)) as [<-|Hne];
        [|by apply task_inv_other, Ht].
      rewrite Huj in Hu. injection Hu as <-.
      right; right. exists cached. split.
      { apply list_lookup_insert_eq. by eapply lookup_lt_Some. }
      exists self, now, now. by rewrite (_process_single_url_hit _ _ _ _ _ cached).
    + split; try done; [by rewrite length_insert|].
      intros i u Hu. destruct (decide (j = i)) as [<-|Hne];
        [|by apply task_inv_other, Ht].
      rewrite Huj in Hu. injection Hu as <-.
      right; left. split; [|split].
      { apply list_lookup_insert_eq. by eapply lookup_lt_Some. }
      { rewrite occ_snoc, Hocc. by destruct (decide (j = j)). }
      by exists self, now.
  - (* the task resumes and finishes *)
    destruct Hjinv as [[Heq _]|[(Heq & Hocc & selfc & t0 & Hsc & HQc & Hmiss)
                               |(r & Heq & _)]];
      rewrite Hj in Heq; try done. injection Heq as ->.
    assert (produced env self0 Q uj (entry_of uj (analyze_fresh env self now uj)))
      as Hprod.
    { exists selfc, t0, now. split; [done|]. split; [done|].
      rewrite _process_single_url_miss by done.
      apply analyze_fresh_settings.
      unfold same_settings in *. destruct_and!. repeat split; congruence. }
    destruct (analyze_fresh env self now uj) as [e|[r self']] eqn:Hf.
    + split; try done; [by rewrite length_insert|].
      intros i u Hu. destruct (decide (j = i)) as [<-|Hne];
        [|by apply task_inv_other, Ht].
      rewrite Huj in Hu. injection Hu as <-.
      right; right. eexists. split; [|exact Hprod].
      apply list_lookup_insert_eq. by eapply lookup_lt_Some.
    + apply analyze_fresh_inr in Hf as [Hurl Hself'].
      assert (same_settings self0 self' ∧ Q self' ∧
              processing_urls self' = processing_urls self0) as (? & ? & ?).
      { destruct Hself' as [->| ->]; [done|]. split; [|split].
        - eapply same_settings_trans; [exact Hs|apply same_settings_update_cache].
        - by apply Q_update.
        - by rewrite processing_urls_update_cache. }
      split; try done; [by rewrite length_insert|].
      intros i u Hu. destruct (decide (j = i)) as [<-|Hne];
        [|by apply task_inv_other, Ht].
      rewrite Huj in Hu. injection Hu as <-.
      right; right. eexists. split; [|exact Hprod].
      apply list_lookup_insert_eq. by eapply lookup_lt_Some.
  - (* the task is done already *)
    split; try done. intros i u Hu. apply task_inv_skip; [|by apply Ht].
    destruct (decide (j = i)) as [<-|]; [right; eauto|by left].
Qed.

Lemma gather_inv_run sched log :
  Q self0 →
  let '(self, tasks, _) := foldl (step env) (self0, Pending <$> urls, log) sched in
  gather_inv sched self tasks.
Proof.
  intros HQ. induction sched as [|slot s IH] using rev_ind; simpl.
  - by apply gather_inv_init.
  - rewrite foldl_app. simpl.
    destruct (foldl (step env) (self0, Pending <$> urls, log) s)
      as [[self tasks] log'].
    by apply (gather_inv_step s self tasks log' slot).
Qed.

End GatherInvariant.

(** ** The results of a finished [gather] *)

Lemma complete_occ n sched i :
  complete n sched = true → (i < n)%nat → (2 ≤ occ i sched)%nat.
Proof.
  unfold complete. rewrite forallb_forall. intros H Hi.
  specialize (H i). rewrite bool_decide_eq_true in H. apply H.
  apply in_seq. lia.
Qed.

Lemma results_of_lookup tasks rs i :
  results_of tasks = Some rs → tasks !! i = Done <$> (rs !! i).
Proof.
  unfold results_of. intros H. apply mapM_Some in H.
  revert i. induction H as [|t r tasks rs Ht _ IH]; intros i; [done|].
  destruct i as [|i]; simpl; [|apply IH].
  destruct t; by inversion Ht.
Qed.

Lemma results_of_length tasks rs :
  results_of tasks = Some rs → length rs = length tasks.
Proof.
  unfold results_of. intros H. apply mapM_Some in H.
  symmetry. by eapply Forall2_length.
Qed.

Lemma results_of_all_done tasks :
  (∀ i t, tasks !! i = Some t → ∃ r, t = Done r) →
  ∃ rs, results_of tasks = Some rs.
Proof.
  induction tasks as [|t tasks IH]; intros H; [by exists []|].
  destruct (H 0%nat t eq_refl) as [r ->].
  destruct IH as [rs Hrs]; [intros i; apply (H (S i))|].
  exists (r :: rs). unfold results_of in *. simpl. by rewrite Hrs.
Qed.

(** After a complete schedule every task is done, and the results stand at
    the indices of their URLs. *)
Lemma gather_inv_complete env self0 urls Q sched self tasks :
  gather_inv env self0 urls Q sched self tasks →
  complete (length urls) sched = true →
  ∃ rs, results_of tasks = Some rs ∧ length rs = length urls ∧
    ∀ i u, urls !! i = Some u →
      ∃ r, rs !! i = Some r ∧ produced env self0 Q u r.
Proof.
  intros [_ _ _ Hlen Ht] Hc.
  assert (∀ i u, urls !! i = Some u →
            ∃ r, tasks !! i = Some (Done r) ∧ produced env self0 Q u r) as Hdone.
  { intros i u Hu.
    pose proof (complete_occ _ _ i Hc (lookup_lt_Some _ _ _ Hu)) as Hocc.
    destruct (Ht i u Hu) as [[_ H0]|[(_ & H1 & _)|H]]; [lia|lia|done]. }
  destruct (results_of_all_done tasks) as [rs Hrs].
  { intros i t Hi.
    destruct (lookup_lt_is_Some_2 urls i) as [u Hu];
      [rewrite <- Hlen; by eapply lookup_lt_Some|].
    destruct (Hdone i u Hu) as (r & Hr & _). exists r. congruence. }
  exists rs. split; [done|]. split.
  { by rewrite (results_of_length tasks rs). }
  intros i u Hu. destruct (Hdone i u Hu) as (r & Hr & Hp).
  exists r. split; [|done].
  rewrite (results_of_lookup tasks rs i Hrs) in Hr.
  by destruct (rs !! i); simplify_eq/=.
Qed.

(** Conversely, when [gather] returns results, they stand at the indices of
    their URLs, whatever the schedule was. *)
Lemma gather_inv_results env self0 urls Q sched self tasks rs :
  gather_inv env self0 urls Q sched self tasks →
  results_of tasks = Some rs →
  length rs = length urls ∧
  ∀ i u, urls !! i = Some u → ∃ r, rs !! i = Some r ∧ produced env self0 Q u r.
Proof.
  intros [_ _ _ Hlen Ht] Hrs. split.
  { by rewrite (results_of_length tasks rs). }
  intros i u Hu.
  pose proof (results_of_lookup tasks rs i Hrs) as Hi.
  destruct (Ht i u Hu) as [[H _]|[(H & _)|(r & H & Hp)]];
    rewrite H in Hi; destruct (rs !! i) as [r'|]; simplify_eq/=.
  by exists r'.
Qed.

(** ** The batch processor, by cases *)

Lemma _batch_process_urls_unfold env self run urls :
  _batch_process_urls env self run urls =
  let filtered_urls := admitted self urls in
  let self1 :=
    with_processing_urls self
      (processing_urls self ∪ list_to_set filtered_urls) in
  match filtered_urls with
  | [] => (Skipped, self, [])
  | _ =>
      let '(out, self2, log) := process_admitted env self1 run filtered_urls in
      (out,
       with_processing_urls self2 (release (processing_urls self2) filtered_urls),
       log)
  end.
Proof.
  unfold _batch_process_urls, admitted.
  rewrite admission_admission_rec.
  pose proof (admission_rec_processing (processing_urls self) urls) as Hp.
  destruct (admission_rec (processing_urls self) urls) as [f p]; simpl in *.
  subst p. destruct f as [|u f]; [|done].
  simpl. rewrite union_empty_r_L. by rewrite with_processing_urls_id.
Qed.

(** The body of the [try] block leaves the set of URLs in flight as it is
    and keeps the settings. *)
Lemma process_admitted_frame env self run filtered_urls :
  let '(_, self', _) := process_admitted env self run filtered_urls in
  processing_urls self' = processing_urls self ∧ same_settings self self'.
Proof.
  unfold process_admitted, gather.
  destruct (aenter_error run); [split; [done|apply same_settings_refl]|].
  pose proof (gather_inv_run env self filtered_urls (λ _, True)
                (λ _ _ _ _ _ _, I) (schedule run) [Enter] I) as Hinv.
  destruct (foldl (step env) _ (schedule run)) as [[self' tasks] log].
  destruct Hinv as [Hs _ Hp _ _].
  destruct (results_of tasks); [|done].
  destruct (aexit_error run); [done|]. by destruct (send_cancelled run).
Qed.

(** ** The in-flight set *)

(** C1: whatever the services do and however the batch ends (results sent,
    the analyzer failing to open or close, a cancellation while the tasks run
    or while the results are sent), no URL the batch admitted is left in
    [processing_urls] afterwards; the set is the one from before the batch. *)
Theorem batch_releases_admitted_urls env self run urls :
  let '(_, self', _) := _batch_process_urls env self run urls in
  (∀ url, url ∈ admitted self urls → url ∉ processing_urls self') ∧
  processing_urls self' = processing_urls self.
Proof.
  rewrite _batch_process_urls_unfold. simpl.
  assert (∀ url, url ∈ admitted self urls → url ∉ processing_urls self) as Hout.
  { intros url. unfold admitted. rewrite admission_admission_rec, admission_rec_elem. tauto. }
  destruct (admitted self urls) as [|u f] eqn:Hadm; [done|].
  pose proof (process_admitted_frame env
    (with_processing_urls self (processing_urls self ∪ list_to_set (u :: f)))
    run (u :: f)) as Hframe.
  destruct (process_admitted env _ run (u :: f)) as [[out self2] log].
  destruct Hframe as [Hp _]. cbn [processing_urls with_processing_urls] in *.
  rewrite Hp, release_difference.
  assert ((processing_urls self ∪ list_to_set (u :: f)) ∖ list_to_set (u :: f)
          = processing_urls self) as ->; [|done].
  apply set_eq. intros k. rewrite elem_of_difference, elem_of_union.
  rewrite elem_of_list_to_set. specialize (Hout k). tauto.
Qed.

(** Each way out of the batch is taken by some run: the results are sent,
    the analyzer fails to open, the batch is cancelled while its task waits.
    The one URL is out of [processing_urls] afterwards in each case. *)
Lemma batch_exit_paths :
  let urls := ["https://a.example"] in
  let batch run := _batch_process_urls failing_env sample_plugin run urls in
  let no_session :=
    {| aenter_error := Some (Exception "no session"); schedule := [];
       aexit_error := None; send_cancelled := false |} in
  (batch (quiet_run (in_order 1 0 1))).1.1
  = Sent [error_result "https://a.example" (Exception "connection refused")] ∧
  (batch no_session).1.1 = Raised (Exception "no session") ∧
  (batch (quiet_run [(0%nat, 0)])).1.1 = Cancelled ∧
  processing_urls (batch (quiet_run (in_order 1 0 1))).1.2 = ∅ ∧
  processing_urls (batch no_session).1.2 = ∅ ∧
  processing_urls (batch (quiet_run [(0%nat, 0)])).1.2 = ∅.
Proof. repeat split; by vm_compute. Qed.

(** C7: when every submitted URL is already in flight, the batch returns at
    once: nothing is sent, the analyzer is not opened (the log of events is
    empty) and the plugin is unchanged. *)
Theorem batch_all_in_flight_returns_at_once env self run urls :
  (∀ url, url ∈ urls → url ∈ processing_urls self) →
  admitted self urls = [] ∧
  _batch_process_urls env self run urls = (Skipped, self, []).
Proof.
  intros Hall.
  assert (admitted self urls = []) as Hadm.
  { apply elem_of_nil_inv. intros url. unfold admitted.
    rewrite admission_admission_rec, admission_rec_elem. naive_solver. }
  split; [done|]. rewrite _batch_process_urls_unfold. simpl. by rewrite Hadm.
Qed.

Lemma batch_all_in_flight_returns_at_once_witness :
  let self := with_processing_urls sample_plugin {[ "https://a.example" ]} in
  _batch_process_urls failing_env self (quiet_run [])
    ["https://a.example"; "https://a.example"]
  = (Skipped, self, []).
Proof.
  intros self.
  apply (batch_all_in_flight_returns_at_once failing_env self (quiet_run [])
           ["https://a.example"; "https://a.example"]).
  intros url Hin. simpl. set_solver.
Defined.

(** C5: admission has set semantics. The admitted URLs are the submitted
    ones that are not in flight, each once and in the order of the input; a
    URL submitted twice is admitted once, a URL in flight is left out, and a
    second admission before the release admits nothing. A batch yields
    entries for the admitted URLs only, and leaving a URL out raises
    nothing: an exception comes from opening or closing the analyzer. *)
Theorem admission_has_set_semantics self urls :
  let filtered_urls := admitted self urls in
  let processing := (admission (processing_urls self) urls).2 in
  NoDup filtered_urls ∧
  filtered_urls `sublist_of` urls ∧
  (∀ url, url ∈ filtered_urls ↔ url ∈ urls ∧ url ∉ processing_urls self) ∧
  processing = processing_urls self ∪ list_to_set filtered_urls ∧
  (∀ k, k ∉ processing_urls self → admitted self [k; k] = [k]) ∧
  (∀ k, k ∈ processing_urls self → admitted self [k] = []) ∧
  admitted (with_processing_urls self processing) urls = [] ∧
  ∀ env run,
    match _batch_process_urls env self run urls with
    | (Skipped, _, _) => filtered_urls = []
    | (Sent analysis_results, _, _) =>
        length analysis_results = length filtered_urls
    | (Raised e, _, _) => aenter_error run = Some e ∨ aexit_error run = Some e
    | (Cancelled, _, _) => True
    end.
Proof.
  intros filtered_urls processing. subst filtered_urls processing.
  unfold admitted. rewrite !admission_admission_rec.
  split; [apply admission_rec_NoDup|].
  split; [apply admission_rec_sublist|].
  split; [apply admission_rec_elem|].
  split; [apply admission_rec_processing|].
  split.
  { intros k Hk. rewrite admission_admission_rec. simpl.
    destruct (decide (k ∈ processing_urls self)); [done|].
    destruct (decide (k ∈ {[k]} ∪ processing_urls self)); [done|set_solver]. }
  split.
  { intros k Hk. rewrite admission_admission_rec. simpl.
    by destruct (decide (k ∈ processing_urls self)). }
  split.
  { apply elem_of_nil_inv. intros url. simpl.
    rewrite admission_rec_elem, admission_rec_processing.
    rewrite elem_of_union, elem_of_list_to_set, admission_rec_elem. tauto. }
  intros env run. rewrite _batch_process_urls_unfold. simpl.
  unfold admitted. rewrite admission_admission_rec.
  destruct (admission_rec (processing_urls self) urls).1 as [|u f] eqn:Hadm; [done|].
  unfold process_admitted, gather.
  destruct (aenter_error run) as [e|]; [by left|].
  match goal with |- context [foldl (step env) (?s, Pending <$> ?l, ?g) ?sc] =>
    pose proof (gather_inv_run env s l (λ _, True) (λ _ _ _ _ _ _, I) sc g I) as Hinv;
    destruct (foldl (step env) (s, Pending <$> l, g) sc) as [[self' tasks] log]
  end.
  destruct (results_of tasks) as [rs|] eqn:Hrs; [|done].
  destruct (aexit_error run) as [e|]; [by right|].
  destruct (send_cancelled run); [done|].
  by destruct (gather_inv_results _ _ _ _ _ _ _ _ Hinv Hrs) as [-> _].
Qed.

(** ** The cache *)

Module CacheFacts.
Import CacheManager.

Lemma find_elem k es e : find k es = Some e → (k, e) ∈ es.
Proof.
induction es as [|[k' e'] es IH]; simpl; [done|].
destruct (decide (k' = k)) as [->|]; [intros [= ->]; left|right; auto].
Qed.

Lemma find_None k es : find k es = None ↔ k ∉ es.*1.
Proof.
induction es as [|[k' e'] es IH]; simpl; [set_solver|].
destruct (decide (k' = k)) as [->|]; [set_solver|].
rewrite IH. set_solver.
Qed.

Lemma find_app k es es' :
find k (es ++ es') = match find k es with Some e => Some e | None => find k es' end.
Proof.
induction es as [|[k' e'] es IH]; simpl; [done|].
by destruct (decide (k' = k)).
Qed.

Lemma replace_length k e es : length (replace k e es) = length es.
Proof.
induction es as [|[k' e'] es IH]; simpl; [done|].
destruct (decide (k' = k)); simpl; by rewrite ?IH.
Qed.

Lemma replace_keys k e es : (replace k e es).*1 = es.*1.
Proof.
induction es as [|[k' e'] es IH]; [done|]. cbn [replace].
destruct (decide (k' = k)); rewrite !fmap_cons; [done|by rewrite IH].
Qed.

Lemma find_replace_eq k e es :
is_Some (find k es) → find k (replace k e es) = Some e.
Proof.
induction es as [|[k' e'] es IH]; simpl; [by intros [? ?]|].
destruct (decide (k' = k)) as [->|Hne]; simpl.
- by destruct (decide (k = k)).
- by destruct (decide (k' = k)).
Qed.

Lemma find_replace_ne k k' e es :
k' ≠ k → find k' (replace k e es) = find k' es.
Proof.
intros Hne. induction es as [|[k0 e0] es IH]; simpl; [done|].
destruct (decide (k0 = k)) as [->|]; simpl.
- by destruct (decide (k = k')).
- by destruct (decide (k0 = k')).
Qed.

Lemma replace_elem k e es x :
x ∈ replace k e es → x ∈ es ∨ x = (k, e).
Proof.
induction es as [|[k' e'] es IH]; simpl; [by left|].
destruct (decide (k' = k)) as [->|].
- rewrite !elem_of_cons. naive_solver.
- rewrite !elem_of_cons. naive_solver.
Qed.

Lemma tail_elem {A} (l : list A) x : x ∈ tail l → x ∈ l.
Proof. destruct l; simpl; [done|by right]. Qed.

Lemma set_max_size c now k v : max_size (set c now k v) = max_size c.
Proof. unfold set. by destruct (find k (entries c)). Qed.

Lemma set_expire_time c now k v : expire_time (set c now k v) = expire_time c.
Proof. unfold set. by destruct (find k (entries c)). Qed.

(** An entry after [set] was there before or is the new one. *)
Lemma set_elem c now k v x :
x ∈ entries (set c now k v) →
x ∈ entries c ∨
x = (k, {| value := v; created_at := now; expires_at := now + expire_time c |}).
Proof.
unfold set. destruct (find k (entries c)); simpl.
- apply replace_elem.
- rewrite elem_of_app, list_elem_of_singleton.
  intros [H| ->]; [left|by right].
  destruct (decide _); [by apply tail_elem|done].
Qed.

Lemma set_well_keyed c now k v :
well_keyed c → rd_url v = k → well_keyed (set c now k v).
Proof.
intros Hwk Hv k' e' Hin. apply set_elem in Hin as [Hin|[= -> ->]]; [|done].
by apply Hwk.
Qed.

Lemma get_well_keyed c now k v : well_keyed c → get c now k = Some v → rd_url v = k.
Proof.
unfold get. intros Hwk.
destruct (find k (entries c)) as [e|] eqn:Hf; [|done].
destruct (valid now e); [|done]. intros [= <-].
by apply Hwk, find_elem.
Qed.

(** The size after a [set] stays within the capacity. *)
Lemma set_length c now k v :
0 < max_size c →
Z.of_nat (length (entries c)) ≤ max_size c →
Z.of_nat (length (entries (set c now k v))) ≤ max_size c.
Proof.
intros Hpos Hle. unfold set. destruct (find k (entries c)); simpl.
- by rewrite replace_length.
- rewrite length_app. simpl.
  destruct (decide _) as [Heq|Hne]; [|lia].
  destruct (entries c); simpl in *; lia.
Qed.

Lemma run_max_size c ops : max_size (run c ops) = max_size c.
Proof.
revert c. induction ops as [|[now k v|] ops IH]; intros c; simpl; [done|..].
- unfold run in *. simpl. by rewrite IH, set_max_size.
- unfold run in *. simpl. by rewrite IH.
Qed.

Lemma run_expire_time c ops : expire_time (run c ops) = expire_time c.
Proof.
revert c. induction ops as [|[now k v|] ops IH]; intros c; simpl; [done|..].
- unfold run in *. simpl. by rewrite IH, set_expire_time.
- unfold run in *. simpl. by rewrite IH.
Qed.

Lemma run_length c ops :
0 < max_size c →
Z.of_nat (length (entries c)) ≤ max_size c →
Z.of_nat (length (entries (run c ops))) ≤ max_size c.
Proof.
revert c. induction ops as [|[now k v|] ops IH]; intros c Hpos Hle; [done|..].
- unfold run in *. simpl. rewrite <- (set_max_size c now k v).
  apply IH; rewrite set_max_size; [done|by apply set_length].
- unfold run in *. simpl. apply (IH (clear c)); simpl; [done|lia].
Qed.

End CacheFacts.

(** C8: starting from the empty cache of capacity [cap], after every call
    of a sequence of [set] and [clear] calls the cache holds at most [cap]
    entries. A [set] of a new key on a full cache drops exactly the first,
    oldest-inserted entry and appends the new one; below the capacity it
    only appends; on an existing key it keeps all keys in their order, gives
    the entry fresh times and leaves the other entries alone. Reading with
    [get] yields a value only and so never changes the order. *)
Theorem cache_is_bounded_and_evicts_oldest (cap ttl : Z)
    (ops : list CacheManager.op) :
  0 < cap →
  let c := CacheManager.run (CacheManager.new cap ttl) ops in
  let fresh v now := CacheManager.Entry v now (now + ttl) in
  (∀ n, Z.of_nat (length (CacheManager.entries
          (CacheManager.run (CacheManager.new cap ttl) (take n ops)))) ≤ cap) ∧
  (∀ now k v,
     CacheManager.find k (CacheManager.entries c) = None →
     Z.of_nat (length (CacheManager.entries c)) = cap →
     CacheManager.entries (CacheManager.set c now k v)
     = tail (CacheManager.entries c) ++ [(k, fresh v now)]) ∧
  (∀ now k v,
     CacheManager.find k (CacheManager.entries c) = None →
     Z.of_nat (length (CacheManager.entries c)) ≠ cap →
     CacheManager.entries (CacheManager.set c now k v)
     = CacheManager.entries c ++ [(k, fresh v now)]) ∧
  (∀ now k v,
     is_Some (CacheManager.find k (CacheManager.entries c)) →
     CacheManager.keys (CacheManager.set c now k v) = CacheManager.keys c ∧
     CacheManager.find k (CacheManager.entries (CacheManager.set c now k v))
     = Some (fresh v now) ∧
     ∀ k', k' ≠ k →
       CacheManager.find k' (CacheManager.entries (CacheManager.set c now k v))
       = CacheManager.find k' (CacheManager.entries c)).
Proof.
  intros Hcap c fresh.
  assert (CacheManager.expire_time c = ttl) as Httl
    by apply CacheFacts.run_expire_time.
  assert (CacheManager.max_size c = cap) as Hmax
    by apply CacheFacts.run_max_size.
  split; [|split; [|split]].
  - intros n.
    pose proof (CacheFacts.run_length (CacheManager.new cap ttl) (take n ops))
      as Hlen.
    simpl in Hlen. apply Hlen; [done|lia].
  - intros now k v Hnew Hfull. unfold CacheManager.set.
    rewrite Hnew, Httl, Hmax. simpl. by destruct (decide _).
  - intros now k v Hnew Hroom. unfold CacheManager.set.
    rewrite Hnew, Httl, Hmax. simpl. by destruct (decide _).
  - intros now k v Hold. unfold CacheManager.set, CacheManager.keys.
    destruct Hold as [e He]. rewrite He, Httl. simpl.
    split; [apply CacheFacts.replace_keys|]. split.
    + apply CacheFacts.find_replace_eq. by rewrite He.
    + intros k' Hne. by apply CacheFacts.find_replace_ne.
Qed.

Lemma cache_is_bounded_and_evicts_oldest_witness :
  let r := {| rd_url := "u"; rd_result := "text"; rd_screenshot := None |} in
  let c :=
    CacheManager.run (CacheManager.new 2 60)
      [CacheManager.OpSet 0 "a" r; CacheManager.OpSet 1 "b" r] in
  0 < 2 ∧
  CacheManager.keys (CacheManager.set c 2 "c" r) = ["b"; "c"].
Proof.
  intros r c. split; [lia|].
  destruct (cache_is_bounded_and_evicts_oldest 2 60
              [CacheManager.OpSet 0 "a" r; CacheManager.OpSet 1 "b" r])
    as (_ & Hevict & _); [lia|].
  unfold CacheManager.keys. fold c in Hevict.
  by rewrite (Hevict 2 "c" r).
Defined.

(** C9: the constructor creates the cache manager with a capacity between
    10 and 1000 and an expiry time between 5 and 10080 minutes, whatever
    integers the cache settings give: a value below the range becomes the
    lower bound, a value above it the upper bound, a value inside is kept,
    and a missing value is the default 100 or 1440. *)
Theorem init_clamps_cache_settings (config : AstrBotConfig) :
  let self := init config in
  let size := default 100 (cfg_cache_settings config ≫= cs_max_cache_size) in
  let minutes := default 1440 (cfg_cache_settings config ≫= cs_cache_expire_time) in
  10 ≤ CacheManager.max_size (cache_manager self) ≤ 1000 ∧
  5 ≤ CacheManager.expire_time (cache_manager self) ≤ 10080 ∧
  CacheManager.max_size (cache_manager self)
  = (if decide (size < 10) then 10 else if decide (1000 < size) then 1000 else size) ∧
  CacheManager.expire_time (cache_manager self)
  = (if decide (minutes < 5) then 5
     else if decide (10080 < minutes) then 10080 else minutes) ∧
  max_cache_size self = CacheManager.max_size (cache_manager self) ∧
  cache_expire_time self = CacheManager.expire_time (cache_manager self) ∧
  CacheManager.entries (cache_manager self) = [].
Proof.
  unfold init. simpl.
  destruct (cfg_cache_settings config) as [[en minutes size]|]; simpl.
  - destruct size as [size|], minutes as [minutes|]; simpl;
      repeat case_decide; repeat split; lia.
  - repeat case_decide; repeat split; lia.
Qed.


(** ** Tasks of one batch do not disturb each other *)

Lemma unfinished_insert_done tasks i t r :
  tasks !! i = Some t → is_done t = false →
  (unfinished (<[i := Done r]> tasks) + 1 = unfinished tasks)%nat.
Proof.
  unfold unfinished. revert i.
  induction tasks as [|t' tasks IH]; intros i Hi Ht; [done|].
  destruct i as [|i]; simpl in *.
  - injection Hi as ->. rewrite !filter_cons. simpl.
    rewrite decide_True by done. simpl. lia.
  - specialize (IH i Hi Ht). rewrite !filter_cons.
    destruct (decide (is_done t' = false)); simpl; lia.
Qed.

Lemma unfinished_insert_waiting tasks i t u :
  tasks !! i = Some t → is_done t = false →
  unfinished (<[i := Waiting u]> tasks) = unfinished tasks.
Proof.
  unfold unfinished. revert i.
  induction tasks as [|t' tasks IH]; intros i Hi Ht; [done|].
  destruct i as [|i]; simpl in *.
  - injection Hi as ->. rewrite !filter_cons. simpl.
    by rewrite !decide_True by done.
  - specialize (IH i Hi Ht). rewrite !filter_cons.
    destruct (decide (is_done t' = false)); simpl; lia.
Qed.

Lemma _check_cache_processing_urls self s now url :
  _check_cache (with_processing_urls self s) now url = _check_cache self now url.
Proof. done. Qed.

Lemma analyze_fresh_processing_urls env self s now url :
  entry_of url (analyze_fresh env (with_processing_urls self s) now url)
  = entry_of url (analyze_fresh env self now url).
Proof. by apply analyze_fresh_settings. Qed.

(** Below the capacity, a [set] leaves the entries of the other keys alone. *)
Lemma set_find_ne c now k v k' :
  k' ≠ k →
  Z.of_nat (length (CacheManager.entries c)) < CacheManager.max_size c →
  CacheManager.find k' (CacheManager.entries (CacheManager.set c now k v))
  = CacheManager.find k' (CacheManager.entries c).
Proof.
  intros Hne Hroom. unfold CacheManager.set.
  destruct (CacheManager.find k (CacheManager.entries c)); simpl.
  - by apply CacheFacts.find_replace_ne.
  - rewrite decide_False by lia. rewrite CacheFacts.find_app. simpl.
    rewrite decide_False by done. by destruct (CacheManager.find k' _).
Qed.

Lemma set_length_le c now k v :
  (length (CacheManager.entries (CacheManager.set c now k v))
   ≤ length (CacheManager.entries c) + 1)%nat.
Proof.
  unfold CacheManager.set.
  destruct (CacheManager.find k (CacheManager.entries c)); simpl.
  - rewrite CacheFacts.replace_length. lia.
  - rewrite length_app. simpl. destruct (decide _); [|lia].
    destruct (CacheManager.entries c); simpl; lia.
Qed.

(** With room in the cache, writing the entry of one URL does not change
    what the cache answers for another. *)
Lemma _check_cache_update_ne self now url r t url' :
  url' ≠ url →
  (enable_cache self = true →
   Z.of_nat (length (CacheManager.entries (cache_manager self)))
   < CacheManager.max_size (cache_manager self)) →
  _check_cache (_update_cache self now url r) t url' = _check_cache self t url'.
Proof.
  intros Hne Hroom. unfold _check_cache, _update_cache.
  destruct (enable_cache self) eqn:Hc; simpl; [|by rewrite Hc].
  rewrite Hc. simpl. unfold CacheManager.get.
  by rewrite set_find_ne by auto.
Qed.

Section IsolationFacts.

Context (env : Env) (self0 : WebAnalyzerPlugin) (urls : list string).
Hypothesis urls_NoDup : NoDup urls.

Local Ltac in_snoc := repeat split; try done; apply elem_of_app; by left.

Abbreviation tiso := (task_iso env self0).
Abbreviation inv := (iso_inv env self0 urls).

Lemma task_iso_other s tasks log log' i u j t x :
  j ≠ i → (Fetch u ∈ log' ↔ Fetch u ∈ log) →
  tiso s tasks log i u →
  tiso (s ++ [(j, t)]) (<[j := x]> tasks) log' i u.
Proof.
  intros Hne Hlog. unfold task_iso.
  rewrite occ_snoc, list_lookup_insert_ne, decide_False, Nat.add_0_r by done.
  intros [(? & ? & ?)|[(? & ? & ? & t' & ? & ?)
                      |[(r & t' & ? & ? & ? & ?)|(t' & ? & ? & ? & ?)]]].
  - left. repeat split; try done. by rewrite Hlog.
  - right; left. repeat split; try done; [by apply Hlog|]. exists t'. in_snoc.
  - right; right; left. exists r, t'.
    repeat split; try done; [by rewrite Hlog|]. apply elem_of_app; by left.
  - right; right; right. exists t'.
    repeat split; try done; [by apply Hlog|]. apply elem_of_app; by left.
Qed.

Lemma task_iso_skip s tasks log i u j t :
  (j ≠ i ∨ ∃ r, tasks !! i = Some (Done r)) →
  tiso s tasks log i u → tiso (s ++ [(j, t)]) tasks log i u.
Proof.
  intros Hcase. unfold task_iso. rewrite occ_snoc.
  intros [(Hi & ? & ?)|[(Hi & ? & ? & t' & ? & ?)
                       |[(r & t' & ? & ? & ? & ?)|(t' & ? & ? & ? & ?)]]].
  - left. destruct Hcase as [?|[r Hr]]; [|congruence].
    by rewrite decide_False, Nat.add_0_r by done.
  - right; left. destruct Hcase as [?|[r Hr]]; [|congruence].
    rewrite decide_False, Nat.add_0_r by done.
    repeat split; try done. exists t'. in_snoc.
  - right; right; left. exists r, t'. in_snoc.
  - right; right; right. exists t'. in_snoc.
Qed.

(** The URL of a task that is not done is the URL at its index. *)
Lemma iso_inv_url s self tasks log i u :
  inv s self tasks log →
  tasks !! i = Some (Pending u) ∨ tasks !! i = Some (Waiting u) →
  urls !! i = Some u.
Proof.
  intros Hinv Hi.
  destruct (lookup_lt_is_Some_2 urls i) as [ui Hui].
  { rewrite <- (ii_length _ _ _ _ _ _ _ Hinv).
    destruct Hi as [Hi|Hi]; by eapply lookup_lt_Some. }
  destruct (ii_tasks _ _ _ _ _ _ _ Hinv i ui Hui)
    as [(H & _)|[(H & _)|[(r & t & H & _)|(t & H & _)]]];
    destruct Hi as [Hi|Hi]; congruence.
Qed.

Lemma iso_inv_distinct i j ui uj :
  urls !! i = Some ui → urls !! j = Some uj → j ≠ i → ui ≠ uj.
Proof.
  intros Hi Hj Hne ->. apply Hne. by eapply NoDup_lookup.
Qed.

Lemma iso_inv_init log :
  (∀ u, Fetch u ∉ log) →
  (enable_cache self0 = true →
   Z.of_nat (length (CacheManager.entries (cache_manager self0)))
   + Z.of_nat (length urls)
   ≤ CacheManager.max_size (cache_manager self0)) →
  inv [] self0 (Pending <$> urls) log.
Proof.
  intros Hlog Hroom. split.
  - apply same_settings_refl.
  - done.
  - by rewrite length_fmap.
  - intros Hc _. specialize (Hroom Hc).
    assert (unfinished (Pending <$> urls) ≤ length urls)%nat; [|lia].
    unfold unfinished. rewrite <- (length_fmap Pending urls).
    apply length_filter.
  - done.
  - intros i u Hu. left. by rewrite list_lookup_fmap, Hu.
  - intros u Hu. by apply Hlog in Hu.
Qed.

Lemma pending_after_insert (tasks : list task) j x i u :
  (∀ u', x ≠ Pending u') →
  <[j := x]> tasks !! i = Some (Pending u) →
  j ≠ i ∧ tasks !! i = Some (Pending u).
Proof.
  intros Hx Hi. destruct (decide (j = i)) as [->|Hne].
  - destruct (decide (i < length tasks)%nat).
    + rewrite list_lookup_insert_eq in Hi by done. injection Hi as ->.
      by destruct (Hx u).
    + rewrite list_insert_ge in Hi by lia. apply lookup_lt_Some in Hi. lia.
  - by rewrite list_lookup_insert_ne in Hi.
Qed.

Lemma iso_inv_step s self tasks log slot :
  inv s self tasks log →
  let '(self', tasks', log') := step env (self, tasks, log) slot in
  inv (s ++ [slot]) self' tasks' log'.
Proof.
  intros Hinv. pose proof Hinv as [Hs Hoff Hlen Hroom Hcache Ht Hlog].
  destruct slot as [j now]. unfold step.
  destruct (tasks !! j) as [tj|] eqn:Hj; cycle 1.
  { split; try done. intros i u Hu. apply task_iso_skip; [|by apply Ht].
    left. intros ->. apply lookup_lt_Some in Hu. apply lookup_ge_None in Hj. lia. }
  assert (j < length tasks)%nat as Hjlt by (by eapply lookup_lt_Some).
  destruct tj as [uj|uj|rj].
  - (* the task starts *)
    assert (urls !! j = Some uj) as Huj by (eapply iso_inv_url; eauto).
    destruct (Ht j uj Huj)
      as [(_ & Hocc & Hnolog)|[(H & _)|[(r & t & H & _)|(t & H & _)]]];
      try congruence.
    pose proof (Hcache j uj Hj now) as Hnow.
    destruct (_check_cache self now uj) as [cached|] eqn:Hc.
    + split; [done|done|by rewrite length_insert|..|done].
      * intros Hen (i & u & Hi).
        apply pending_after_insert in Hi as [Hne Hi]; [|done].
        pose proof (Hroom Hen (ex_intro _ i (ex_intro _ u Hi))).
        pose proof (unfinished_insert_done tasks j _ cached Hj eq_refl). lia.
      * intros i u Hi t.
        apply pending_after_insert in Hi as [Hne Hi]; [|done]. by eapply Hcache.
      * intros i u Hu. destruct (decide (j = i)) as [<-|Hne];
          [|by apply (task_iso_other _ _ log); [| |apply Ht]].
        rewrite Huj in Hu. injection Hu as <-.
        right; right; left. exists cached, now.
        repeat split; [by apply list_lookup_insert_eq|done| |done].
        apply elem_of_app; right. by left.
    + split; [done|done|by rewrite length_insert|..].
      * intros Hen (i & u & Hi).
        apply pending_after_insert in Hi as [Hne Hi]; [|done].
        pose proof (Hroom Hen (ex_intro _ i (ex_intro _ u Hi))).
        pose proof (unfinished_insert_waiting tasks j _ uj Hj eq_refl). lia.
      * intros i u Hi t.
        apply pending_after_insert in Hi as [Hne Hi]; [|done]. by eapply Hcache.
      * intros i u Hu. destruct (decide (j = i)) as [<-|Hne].
        -- rewrite Huj in Hu. injection Hu as <-.
           right; left.
           repeat split; [by apply list_lookup_insert_eq| |set_solver|].
           { rewrite occ_snoc, Hocc. by rewrite decide_True. }
           exists now. split; [|done]. apply elem_of_app; right. by left.
        -- apply (task_iso_other _ _ log); [done| |by apply Ht].
           pose proof (iso_inv_distinct _ _ _ _ Hu Huj Hne).
           rewrite elem_of_app, list_elem_of_singleton. naive_solver.
      * intros u. rewrite elem_of_app, list_elem_of_singleton.
        intros [?|[= ->]]; [by apply Hlog|by eapply list_elem_of_lookup_2].
  - (* the task resumes and finishes *)
    assert (urls !! j = Some uj) as Huj by (eapply iso_inv_url; eauto).
    destruct (Ht j uj Huj)
      as [(H & _)|[(_ & Hocc & Hfetch & t0 & Ht0 & Hmiss)
                  |[(r & t & H & _)|(t & H & _)]]];
      try congruence.
    pose proof (analyze_fresh_settings env self0 self 0 now uj Hs) as Hentry.
    assert (∀ x,
      x = entry_of uj (analyze_fresh env self now uj) →
      ∀ i u, urls !! i = Some u →
        tiso (s ++ [(j, now)]) (<[j := Done x]> tasks) log i u) as Htasks.
    { intros x -> i u Hu. destruct (decide (j = i)) as [<-|Hne];
        [|by apply (task_iso_other _ _ log); [| |apply Ht]].
      rewrite Huj in Hu. injection Hu as <-.
      right; right; right. exists t0. rewrite <- Hentry.
      repeat split; [by apply list_lookup_insert_eq|done| |done].
      apply elem_of_app. by left. }
    pose proof (unfinished_insert_done tasks j _
                  (entry_of uj (analyze_fresh env self now uj)) Hj eq_refl)
      as Hunf.
    destruct (analyze_fresh env self now uj) as [e|[r self']] eqn:Hf; simpl in *.
    + split; [done|done|by rewrite length_insert|..|by apply Htasks|done].
      * intros Hen (i & u & Hi).
        apply pending_after_insert in Hi as [Hne Hi]; [|done].
        pose proof (Hroom Hen (ex_intro _ i (ex_intro _ u Hi))). lia.
      * intros i u Hi t.
        apply pending_after_insert in Hi as [Hne Hi]; [|done]. by eapply Hcache.
    + apply analyze_fresh_inr in Hf as [Hurl Hself'].
      destruct Hself' as [->| ->].
      { split; [done|done|by rewrite length_insert|..|by apply Htasks|done].
        * intros Hen (i & u & Hi).
          apply pending_after_insert in Hi as [Hne Hi]; [|done].
          pose proof (Hroom Hen (ex_intro _ i (ex_intro _ u Hi))). lia.
        * intros i u Hi t.
          apply pending_after_insert in Hi as [Hne Hi]; [|done].
          by eapply Hcache. }
      assert (CacheManager.max_size (cache_manager self)
              = CacheManager.max_size (cache_manager self0)) as Hmax.
      { unfold same_settings in Hs. by destruct_and!. }
      assert (enable_cache self = enable_cache self0) as Hen0.
      { unfold same_settings in Hs. by destruct_and!. }
      split; [|..|by rewrite length_insert| | |by apply Htasks|done].
      * eapply same_settings_trans; [exact Hs|apply same_settings_update_cache].
      * intros Hdis. rewrite (Hoff Hdis). unfold _update_cache. by rewrite Hdis.
      * intros Hen (i & u & Hi).
        apply pending_after_insert in Hi as [Hne Hi]; [|done].
        pose proof (Hroom Hen (ex_intro _ i (ex_intro _ u Hi))) as Hr.
        unfold _update_cache. rewrite Hen0, Hen. simpl.
        pose proof (set_length_le (cache_manager self) now uj r). lia.
      * intros i u Hi t.
        apply pending_after_insert in Hi as [Hne Hi]; [|done].
        rewrite <- (Hcache i u Hi t).
        apply _check_cache_update_ne.
        -- eapply iso_inv_distinct; [|exact Huj|done].
           eapply iso_inv_url; eauto.
        -- intros Hen. rewrite Hen0 in Hen.
           pose proof (Hroom Hen (ex_intro _ i (ex_intro _ u Hi))). lia.
  - (* the task is done already *)
    split; try done. intros i u Hu. apply task_iso_skip; [|by apply Ht].
    destruct (decide (j = i)) as [<-|]; [right; eauto|by left].
Qed.

Lemma iso_inv_run sched s self tasks log :
  inv s self tasks log →
  let '(self', tasks', log') := foldl (step env) (self, tasks, log) sched in
  inv (s ++ sched) self' tasks' log'.
Proof.
  revert s self tasks log.
  induction sched as [|slot sched IH]; intros s self tasks log Hinv;
    cbn [foldl].
  - by rewrite app_nil_r.
  - pose proof (iso_inv_step s self tasks log slot Hinv) as Hstep.
    destruct (step env (self, tasks, log) slot) as [[self1 tasks1] log1].
    specialize (IH _ _ _ _ Hstep).
    by rewrite <- app_assoc in IH.
Qed.

(** After a complete schedule every task has ended with the cached entry
    it found before the batch, without calling the analyzer, or with the
    entry of its own pipeline run. *)
Lemma iso_inv_complete sched self tasks log :
  inv sched self tasks log →
  complete (length urls) sched = true →
  ∃ rs, results_of tasks = Some rs ∧ length rs = length urls ∧
    ∀ i u, urls !! i = Some u →
      ∃ t, (i, t) ∈ sched ∧
        match _check_cache self0 t u with
        | Some r => rs !! i = Some r ∧ Fetch u ∉ log
        | None =>
            rs !! i = Some (entry_of u (analyze_fresh env self0 0 u)) ∧
            Fetch u ∈ log
        end.
Proof.
  intros Hinv Hc. pose proof Hinv as [_ _ Hlen _ _ Ht _].
  assert (∀ i u, urls !! i = Some u →
    ∃ t r, (i, t) ∈ sched ∧ tasks !! i = Some (Done r) ∧
      match _check_cache self0 t u with
      | Some r' => r = r' ∧ Fetch u ∉ log
      | None => r = entry_of u (analyze_fresh env self0 0 u) ∧ Fetch u ∈ log
      end) as Hdone.
  { intros i u Hu.
    pose proof (complete_occ _ _ i Hc (lookup_lt_Some _ _ _ Hu)) as Hocc.
    destruct (Ht i u Hu)
      as [(_ & H0 & _)|[(_ & H1 & _)
                       |[(r & t & Hi & Hno & Hin & Hhit)|(t & Hi & Hyes & Hin & Hmiss)]]];
      [lia|lia|..].
    - exists t, r. by rewrite Hhit.
    - exists t, (entry_of u (analyze_fresh env self0 0 u)). by rewrite Hmiss. }
  destruct (results_of_all_done tasks) as [rs Hrs].
  { intros i t Hi.
    destruct (lookup_lt_is_Some_2 urls i) as [u Hu];
      [rewrite <- Hlen; by eapply lookup_lt_Some|].
    destruct (Hdone i u Hu) as (t' & r & _ & Hr & _). exists r. congruence. }
  exists rs. split; [done|]. split.
  { by rewrite (results_of_length tasks rs). }
  intros i u Hu. destruct (Hdone i u Hu) as (t & r & Hin & Hr & Hcase).
  exists t. split; [done|].
  rewrite (results_of_lookup tasks rs i Hrs) in Hr.
  destruct (rs !! i) as [r'|] eqn:Hri; simplify_eq/=.
  destruct (_check_cache self0 t u); by destruct Hcase as [-> ?].
Qed.

End IsolationFacts.

(** ** A batch with one cached URL *)

(** The invariant of undisturbed tasks holds for three tasks when the cache
    has room for the batch, and also when the schedule starts all three
    tasks before it resumes one. *)
Lemma three_tasks_inv env self A B C vB sched :
  NoDup [A; B; C] →
  (∀ t, (0%nat, t) ∈ sched → _check_cache self t A = None) →
  (∀ t, (1%nat, t) ∈ sched → _check_cache self t B = Some vB) →
  (∀ t, (2%nat, t) ∈ sched → _check_cache self t C = None) →
  Z.of_nat (length (CacheManager.entries (cache_manager self))) + 3
  ≤ CacheManager.max_size (cache_manager self)
  ∨ (∃ t0 t1 t2 rest,
       sched = (0%nat, t0) :: (1%nat, t1) :: (2%nat, t2) :: rest) →
  let '(self', tasks, log) :=
    foldl (step env) (self, Pending <$> [A; B; C], [Enter]) sched in
  iso_inv env self [A; B; C] sched self' tasks log.
Proof.
  intros Hnd HcA HcB HcC [Hroom|(t0 & t1 & t2 & rest & ->)].
  - apply (iso_inv_run env self [A; B; C] Hnd sched []).
    apply iso_inv_init; [|done].
    intros u Hu. apply list_elem_of_singleton in Hu. discriminate.
  - pose proof (HcA t0 ltac:(set_solver)) as HA.
    pose proof (HcB t1 ltac:(set_solver)) as HB.
    pose proof (HcC t2 ltac:(set_solver)) as HC.
    cbn [foldl fmap list_fmap]. unfold step at 4. simpl. rewrite HA.
    unfold step at 3. simpl. rewrite HB.
    unfold step at 2. simpl. rewrite HC.
    apply (iso_inv_run env self [A; B; C] Hnd rest
             [(0%nat, t0); (1%nat, t1); (2%nat, t2)]).
    split.
    + apply same_settings_refl.
    + done.
    + done.
    + intros _ (i & u & Hi). by destruct i as [|[|[|i]]].
    + intros i u Hi. by destruct i as [|[|[|i]]].
    + intros i u Hu. destruct i as [|[|[|i]]]; simplify_eq/=.
      * right; left. repeat split; [set_solver|]. exists t0. split; [set_solver|done].
      * right; right; left. exists vB, t1.
        repeat split; [|set_solver|done].
        apply NoDup_cons in Hnd as [HnA Hnd]. apply NoDup_cons in Hnd as [HnB _].
        set_solver.
      * right; left. repeat split; [set_solver|]. exists t2. split; [set_solver|done].
    + intros u Hu. set_solver.
Qed.

Lemma admitted_three self A B C :
  NoDup [A; B; C] →
  (∀ url, url ∈ [A; B; C] → url ∉ processing_urls self) →
  admitted self [A; B; C] = [A; B; C].
Proof.
  intros Hnd Hfree. unfold admitted. rewrite admission_admission_rec.
  apply NoDup_cons in Hnd as [HnA Hnd]. apply NoDup_cons in Hnd as [HnB _].
  cbn [admission_rec].
  rewrite decide_False by (apply Hfree; set_solver).
  rewrite decide_False by (pose proof (Hfree B); set_solver).
  rewrite decide_False by (pose proof (Hfree C); set_solver).
  done.
Qed.

(** C3: for a batch [A; B; C] of distinct URLs that are not in flight,
    where the cache holds a valid entry for B and none for A and C at the
    times their tasks run, a batch that runs to its end sends three entries
    in the order A, B, C: the pipeline's entries for A and C and the cached
    entry for B. The analyzer is called for A and for C and for no other
    URL. The entry of B is not evicted before its task reads the cache: the
    cache has room for the batch, or the three tasks are started before one
    of them resumes. *)
Theorem batch_uses_the_cached_entry env self run A B C vB :
  NoDup [A; B; C] →
  (∀ url, url ∈ [A; B; C] → url ∉ processing_urls self) →
  aenter_error run = None →
  aexit_error run = None →
  send_cancelled run = false →
  complete 3 (schedule run) = true →
  (∀ t, (0%nat, t) ∈ schedule run → _check_cache self t A = None) →
  (∀ t, (1%nat, t) ∈ schedule run → _check_cache self t B = Some vB) →
  (∀ t, (2%nat, t) ∈ schedule run → _check_cache self t C = None) →
  Z.of_nat (length (CacheManager.entries (cache_manager self))) + 3
  ≤ CacheManager.max_size (cache_manager self)
  ∨ (∃ t0 t1 t2 rest,
       schedule run = (0%nat, t0) :: (1%nat, t1) :: (2%nat, t2) :: rest) →
  ∃ rA rC self' log,
    _batch_process_urls env self run [A; B; C] = (Sent [rA; vB; rC], self', log) ∧
    (∀ now, rA = entry_of A (analyze_fresh env self now A)) ∧
    (∀ now, rC = entry_of C (analyze_fresh env self now C)) ∧
    Fetch A ∈ log ∧ Fetch C ∈ log ∧ (Fetch B ∉ log) ∧
    ∀ url, Fetch url ∈ log → url = A ∨ url = C.
Proof.
  intros Hnd Hfree Henter Hexit Hsend Hcomplete HcA HcB HcC Hcase.
  rewrite _batch_process_urls_unfold. cbn zeta.
  rewrite (admitted_three self A B C Hnd Hfree).
  set (self1 := with_processing_urls self _).
  unfold process_admitted, gather. rewrite Henter, Hexit, Hsend.
  pose proof (three_tasks_inv env self1 A B C vB (schedule run) Hnd HcA HcB HcC
                Hcase) as Hinv.
  destruct (foldl (step env) (self1, Pending <$> [A; B; C], [Enter]) (schedule run))
    as [[self' tasks] log].
  destruct (iso_inv_complete env self1 [A; B; C] _ _ _ _ Hinv Hcomplete)
    as (rs & Hrs & Hlen & Hres).
  rewrite Hrs.
  destruct (Hres 0%nat A eq_refl) as (tA & HinA & HrA).
  destruct (Hres 1%nat B eq_refl) as (tB & HinB & HrB).
  destruct (Hres 2%nat C eq_refl) as (tC & HinC & HrC).
  pose proof (HcA _ HinA) as HA.
  pose proof (HcB _ HinB) as HB.
  pose proof (HcC _ HinC) as HC.
  change (_check_cache self1) with (_check_cache self) in *.
  rewrite HA in HrA. rewrite HB in HrB. rewrite HC in HrC.
  destruct HrA as [HrA HfA], HrB as [HrB HfB], HrC as [HrC HfC].
  destruct rs as [|rA [|rB [|rC [|]]]]; simplify_eq/=.
  eexists _, _, _, _. split; [done|].
  split; [intros now; by apply analyze_fresh_settings|].
  split; [intros now; by apply analyze_fresh_settings|].
  split; [set_solver|]. split; [set_solver|]. split; [set_solver|].
  intros url Hurl.
  assert (Fetch url ∈ log) as Hlog by set_solver.
  pose proof (ii_log _ _ _ _ _ _ _ Hinv url Hlog) as Hin.
  set_solver.
Qed.

Lemma batch_uses_the_cached_entry_witness :
  ∃ rA rC self' log,
    _batch_process_urls sample_env sample_plugin_cached (quiet_run (in_order 3 1 2))
      ["https://a.example"; "https://b.example"; "https://c.example"]
    = (Sent [rA; cached_entry; rC], self', log) ∧
    Fetch "https://a.example" ∈ log ∧ Fetch "https://c.example" ∈ log ∧
    Fetch "https://b.example" ∉ log.
Proof.
  destruct (batch_uses_the_cached_entry sample_env sample_plugin_cached
              (quiet_run (in_order 3 1 2))
              "https://a.example" "https://b.example" "https://c.example"
              cached_entry)
    as (rA & rC & self' & log & Hbatch & _ & _ & HA & HC & HB & _);
    try done.
  - repeat (constructor; [set_solver|]). constructor.
  - intros t Hin.
    assert (t = 1 ∨ t = 2) as [-> | ->] by (simpl in Hin; set_solver); done.
  - left. vm_compute. by intros [=].
  - by exists rA, rC, self', log.
Defined.

(** ** The order of the results *)

Lemma cache_well_keyed_update self now url r :
  cache_well_keyed self → rd_url r = url →
  cache_well_keyed (_update_cache self now url r).
Proof.
  unfold cache_well_keyed, _update_cache. intros Hwk Hr.
  destruct (enable_cache self); simpl; [|done].
  by apply CacheFacts.set_well_keyed.
Qed.

(** An entry that [_process_single_url] returns is an entry for its URL. *)
Lemma produced_url env self0 u r :
  produced env self0 cache_well_keyed u r → rd_url r = u.
Proof.
  intros (self & t0 & t1 & _ & Hwk & ->). unfold _process_single_url.
  destruct (_check_cache self t0 u) as [cached|] eqn:Hc; simpl.
  - unfold _check_cache in Hc. destruct (enable_cache self); [|done].
    simpl in Hc. by apply (CacheFacts.get_well_keyed _ _ _ _ Hwk Hc).
  - destruct (analyze_fresh env self t1 u) as [e|[r self']] eqn:Hf; [done|].
    by apply analyze_fresh_inr in Hf as [? _].
Qed.

(** C6: the entries a batch sends are the entries of the admitted URLs in
    the order of admission, whatever the order in which the schedule lets
    the tasks finish; and every complete schedule of a batch that is not
    interrupted sends them. Every value in the cache is an entry for its own
    key, as it is after any sequence of batches. *)
Theorem batch_results_keep_admission_order env self run urls :
  CacheManager.well_keyed (cache_manager self) →
  (∀ analysis_results self' log,
     _batch_process_urls env self run urls = (Sent analysis_results, self', log) →
     rd_url <$> analysis_results = admitted self urls) ∧
  (aenter_error run = None →
   aexit_error run = None →
   send_cancelled run = false →
   complete (length (admitted self urls)) (schedule run) = true →
   admitted self urls ≠ [] →
   ∃ analysis_results self' log,
     _batch_process_urls env self run urls = (Sent analysis_results, self', log)).
Proof.
  intros Hwk. rewrite _batch_process_urls_unfold. cbn zeta.
  destruct (admitted self urls) as [|u f] eqn:Hadm; [done|].
  set (self1 := with_processing_urls self _).
  unfold process_admitted, gather.
  pose proof (gather_inv_run env self1 (u :: f) cache_well_keyed
                cache_well_keyed_update (schedule run) [Enter] Hwk) as Hinv.
  destruct (foldl (step env) (self1, Pending <$> (u :: f), [Enter]) (schedule run))
    as [[self' tasks] log].
  split.
  - intros rs self'' log'. destruct (aenter_error run); [done|].
    destruct (results_of tasks) as [rs'|] eqn:Hrs; [|done].
    destruct (aexit_error run); [done|]. destruct (send_cancelled run); [done|].
    intros [= -> _ _].
    destruct (gather_inv_results _ _ _ _ _ _ _ _ Hinv Hrs) as [Hlen Hprod].
    apply list_eq. intros i. rewrite list_lookup_fmap.
    destruct ((u :: f) !! i) as [ui|] eqn:Hi.
    + destruct (Hprod i ui Hi) as (r & -> & Hr). simpl. f_equal.
      by eapply produced_url.
    + apply lookup_ge_None in Hi. rewrite <- Hlen in Hi.
      apply lookup_ge_None in Hi. by rewrite Hi.
  - intros -> -> -> Hcomplete _.
    destruct (gather_inv_complete _ _ _ _ _ _ _ Hinv Hcomplete) as (rs & -> & _).
    eauto.
Qed.

Lemma batch_results_keep_admission_order_witness :
  ∃ analysis_results self' log,
    _batch_process_urls sample_env sample_plugin
      (quiet_run [(0%nat, 1); (1%nat, 1); (1%nat, 2); (0%nat, 3)])
      ["https://a.example"; "https://b.example"]
    = (Sent analysis_results, self', log) ∧
    rd_url <$> analysis_results = ["https://a.example"; "https://b.example"].
Proof.
  destruct (batch_results_keep_admission_order sample_env sample_plugin
              (quiet_run [(0%nat, 1); (1%nat, 1); (1%nat, 2); (0%nat, 3)])
              ["https://a.example"; "https://b.example"])
    as [Horder Hsent].
  { intros k e Hin. by apply elem_of_nil in Hin. }
  destruct Hsent as (rs & self' & log & Hbatch); try done.
  exists rs, self', log. split; [done|].
  by rewrite (Horder rs self' log Hbatch).
Defined.

(** ** The cache turned off *)

(** C10: with [enable_cache] false, [_check_cache] returns [None] for every
    URL and [_update_cache] returns the plugin as it is; so
    [_process_single_url] always runs the pipeline, and a task of a batch
    that starts always calls the analyzer and never changes the cache
    manager. *)
Theorem disabled_cache_is_never_read_or_written env self :
  enable_cache self = false →
  (∀ now url, _check_cache self now url = None) ∧
  (∀ now url result, _update_cache self now url result = self) ∧
  (∀ t0 t1 url,
     (_process_single_url env self t0 t1 url).1
     = entry_of url (analyze_fresh env self t1 url) ∧
     (_process_single_url env self t0 t1 url).2 = self) ∧
  (∀ tasks log i now url,
     tasks !! i = Some (Pending url) →
     step env (self, tasks, log) (i, now)
     = (self, <[i := Waiting url]> tasks, log ++ [Fetch url])) ∧
  (∀ tasks log i now url,
     tasks !! i = Some (Waiting url) →
     step env (self, tasks, log) (i, now)
     = (self, <[i := Done (entry_of url (analyze_fresh env self now url))]> tasks,
        log)) ∧
  (∀ run urls,
     aenter_error run = None →
     aexit_error run = None →
     send_cancelled run = false →
     complete (length (admitted self urls)) (schedule run) = true →
     admitted self urls ≠ [] →
     ∃ log,
       _batch_process_urls env self run urls
       = (Sent ((λ url, entry_of url (analyze_fresh env self 0 url))
                  <$> admitted self urls), self, log) ∧
       ∀ url, url ∈ admitted self urls → Fetch url ∈ log).
Proof.
  intros Hoff.
  assert (∀ now url, _check_cache self now url = None) as Hcheck.
  { intros. unfold _check_cache. by rewrite Hoff. }
  assert (∀ now url result, _update_cache self now url result = self) as Hupd.
  { intros. unfold _update_cache. by rewrite Hoff. }
  assert (∀ now url r self',
            analyze_fresh env self now url = inr (r, self') → self' = self) as Hsame.
  { intros now url r self' Hf.
    apply analyze_fresh_inr in Hf as [_ [->| ->]]; [done|apply Hupd]. }
  split; [done|]. split; [done|]. split; [|split; [|split]].
  - intros t0 t1 url. split; [by apply _process_single_url_miss|].
    unfold _process_single_url. rewrite Hcheck.
    destruct (analyze_fresh env self t1 url) as [e|[r self']] eqn:Hf; [done|].
    simpl. by eapply Hsame.
  - intros tasks log i now url Hi. unfold step. by rewrite Hi, Hcheck.
  - intros tasks log i now url Hi. unfold step. rewrite Hi.
    destruct (analyze_fresh env self now url) as [e|[r self']] eqn:Hf; [done|].
    simpl. by rewrite (Hsame _ _ _ _ Hf).
  - intros run urls Henter Hexit Hsend Hcomplete Hne.
    rewrite _batch_process_urls_unfold. cbn zeta.
    pose proof (release_admitted self urls) as Hrel.
    assert (NoDup (admitted self urls)) as Hnd.
    { unfold admitted. rewrite admission_admission_rec. apply admission_rec_NoDup. }
    destruct (admitted self urls) as [|u f] eqn:Hadm; [done|].
    set (self1 := with_processing_urls self _) in *.
    unfold process_admitted, gather. rewrite Henter, Hexit, Hsend.
    pose proof (iso_inv_run env self1 (u :: f) Hnd (schedule run) []
                  self1 (Pending <$> (u :: f)) [Enter]) as Hinv.
    destruct (foldl (step env) (self1, Pending <$> (u :: f), [Enter]) (schedule run))
      as [[self' tasks] log].
    simpl in Hinv. specialize (Hinv (iso_inv_init env self1 (u :: f) [Enter]
      ltac:(by intros ? [=]%list_elem_of_singleton)
      ltac:(by simpl; rewrite Hoff))).
    destruct (iso_inv_complete env self1 (u :: f) _ _ _ _ Hinv Hcomplete)
      as (rs & Hrs & Hlen & Hres).
    rewrite Hrs. rewrite (ii_off _ _ _ _ _ _ _ Hinv Hoff).
    exists (log ++ [Exit; Send rs]).
    assert (rs = (λ url, entry_of url (analyze_fresh env self 0 url)) <$> (u :: f))
      as Hrs_eq.
    { apply list_eq. intros i. rewrite list_lookup_fmap.
      destruct ((u :: f) !! i) as [ui|] eqn:Hi.
      - destruct (Hres i ui Hi) as (t & _ & Hcase).
        change (_check_cache self1 t ui) with (_check_cache self t ui) in Hcase.
        rewrite Hcheck in Hcase. destruct Hcase as [-> _]. simpl. f_equal.
        by apply analyze_fresh_settings.
      - apply lookup_ge_None in Hi. rewrite <- Hlen in Hi.
        by apply lookup_ge_None in Hi. }
    split.
    + rewrite <- Hrs_eq. f_equal. f_equal. subst self1.
      cbn [processing_urls with_processing_urls]. rewrite Hrel. by destruct self.
    + intros url Hin. apply list_elem_of_lookup in Hin as [i Hi].
      destruct (Hres i url Hi) as (t & _ & Hcase).
      change (_check_cache self1 t url) with (_check_cache self t url) in Hcase.
      rewrite Hcheck in Hcase. destruct Hcase as [_ Hfetch].
      apply elem_of_app. by left.
Qed.

Lemma disabled_cache_is_never_read_or_written_witness :
  enable_cache sample_plugin_nocache = false ∧
  ∃ log,
    _batch_process_urls sample_env sample_plugin_nocache
      (quiet_run (in_order 2 0 1)) ["https://a.example"; "https://a.example"]
    = (Sent [entry_of "https://a.example"
               (analyze_fresh sample_env sample_plugin_nocache 0
                  "https://a.example")],
       sample_plugin_nocache, log) ∧
    Fetch "https://a.example" ∈ log.
Proof.
  split; [done|].
  destruct (disabled_cache_is_never_read_or_written sample_env
              sample_plugin_nocache eq_refl) as (_ & _ & _ & _ & _ & Hbatch).
  destruct (Hbatch (quiet_run (in_order 2 0 1))
              ["https://a.example"; "https://a.example"])
    as (log & Hsent & Hfetch); try done.
  exists log. split; [exact Hsent|]. apply Hfetch. by left.
Defined.

(** ** Failures and the cache *)

(** When the fetch yields nothing, when the page cannot be parsed and when
    the processing raises, [_process_single_url] returns an entry with the
    error marker and leaves the cache as it was. *)
Lemma failure_paths_leave_cache env self t0 t1 url :
  _check_cache self t0 url = None →
  (∀ e, fetch_webpage env url = inl e →
     _process_single_url env self t0 t1 url = (error_result url e, self)) ∧
  (∀ html, fetch_webpage env url = inr html → truthy html = false →
     _process_single_url env self t0 t1 url
     = ({| rd_url := url; rd_result := "❌ 无法抓取网页内容: " +:+ url;
           rd_screenshot := None |}, self)) ∧
  (∀ html, fetch_webpage env url = inr html → truthy html = true →
     extract_content env (default "" html) url = inr None →
     _process_single_url env self t0 t1 url
     = ({| rd_url := url; rd_result := "❌ 无法解析网页内容: " +:+ url;
           rd_screenshot := None |}, self)) ∧
  (∀ e, analyze_fresh env self t1 url = inl e →
     _process_single_url env self t0 t1 url = (error_result url e, self)).
Proof.
  intros Hc. unfold _process_single_url, analyze_fresh. rewrite Hc.
  repeat split.
  - by intros e ->.
  - intros html -> Ht. simpl. by rewrite Ht.
  - intros html -> Ht Hx. simpl. by rewrite Ht, Hx.
  - by intros e ->.
Qed.

(** C2, at a failing input: the language model raises "timeout" for the
    page of a URL. [analyze_with_llm] turns the exception into the text with
    the error marker, [_process_single_url] returns it as the entry of the
    URL, without screenshot, and writes it to the cache: the next lookup of
    the URL is a hit, and a later batch sends the cached error entry without
    calling the analyzer. *)
Theorem llm_error_entry_is_cached :
  let url := "https://a.example" in
  let failed :=
    {| rd_url := url; rd_result := "❌ LLM分析过程中出现错误: timeout";
       rd_screenshot := None |} in
  _check_cache sample_plugin 0 url = None ∧
  ∃ self',
    _process_single_url llm_failing_env sample_plugin 0 1 url = (failed, self') ∧
    _check_cache self' 2 url = Some failed ∧
    _batch_process_urls llm_failing_env self' (quiet_run (in_order 1 2 3)) [url]
    = (Sent [failed], self', [Enter; Exit; Send [failed]]).
Proof.
  intros url failed. split; [done|].
  eexists. split; [by vm_compute|]. split; by vm_compute.
Qed.

(** ** One entry for every admitted URL *)

Lemma _check_cache_elem self now url r :
  _check_cache self now url = Some r → cached_before self url r.
Proof.
  unfold _check_cache, cached_before, CacheManager.get.
  destruct (enable_cache self); simpl; [|done].
  destruct (CacheManager.find url _) as [e|] eqn:Hfind; [|done].
  destruct (CacheManager.valid now e); [|done]. intros [= <-].
  split; [done|]. exists e. split; [|done]. by apply CacheFacts.find_elem.
Qed.

Lemma _update_cache_elem self now url r k e :
  (k, e) ∈ CacheManager.entries (cache_manager (_update_cache self now url r)) →
  (k, e) ∈ CacheManager.entries (cache_manager self) ∨
  (k = url ∧ CacheManager.value e = r).
Proof.
  unfold _update_cache. destruct (enable_cache self); simpl; [|by left].
  intros [H|[= -> ->]]%CacheFacts.set_elem; [by left|by right].
Qed.

(** The exceptions that reach the [except] of [_process_single_url] are
    those of the fetch, of the content extraction and of the screenshot:
    the translation and the language model have handlers of their own. *)
Lemma analyze_fresh_raises env self now url e :
  analyze_fresh env self now url = inl e →
  fetch_webpage env url = inl e ∨
  (∃ html, fetch_webpage env url = inr (Some html) ∧
     extract_content env html url = inl e) ∨
  (enable_screenshot self = true ∧ capture_screenshot env url = inl e).
Proof.
  unfold analyze_fresh.
  destruct (fetch_webpage env url) as [e'|html]; simpl;
    [intros [= ->]; by left|].
  destruct (truthy html) eqn:Ht; simpl; [|done].
  destruct html as [html|]; [|done]. simpl.
  destruct (extract_content env html url) as [e'|[cd|]] eqn:Hx; simpl;
    [intros [= ->]; right; left; eauto| |done].
  destruct (enable_screenshot self); simpl; [|done].
  destruct (capture_screenshot env url) as [e'|shot]; simpl; [|done].
  intros [= ->]. by right; right.
Qed.

Section SiblingFacts.

Context (env : Env) (self0 : WebAnalyzerPlugin) (urls : list string).

Lemma sibling_inv_init : sibling_inv env self0 urls self0 (Pending <$> urls).
Proof.
  split; [apply same_settings_refl|by rewrite length_fmap|by left| |].
  - intros i u. rewrite !list_lookup_fmap.
    destruct (urls !! i); simpl; naive_solver.
  - intros i u r _. rewrite list_lookup_fmap. by destruct (urls !! i).
Qed.

Lemma sibling_inv_insert self tasks j uj t :
  sibling_inv env self0 urls self tasks →
  urls !! j = Some uj →
  (∀ u, t = Pending u ∨ t = Waiting u → u = uj) →
  (∀ r, t = Done r → own_entry env self0 uj r) →
  sibling_inv env self0 urls self (<[j := t]> tasks).
Proof.
  intros [Hs Hlen Hc Hu Hd] Huj Hurl Hdone.
  split; [done|by rewrite length_insert|done| |].
  - intros i u. destruct (decide (j = i)) as [<-|Hne].
    + rewrite list_lookup_insert_eq
        by (rewrite Hlen; by eapply lookup_lt_Some).
      intros [[= ->]|[= ->]]; rewrite Huj; f_equal; symmetry; apply Hurl; eauto.
    + rewrite list_lookup_insert_ne by done. apply Hu.
  - intros i u r Hi. destruct (decide (j = i)) as [<-|Hne].
    + rewrite list_lookup_insert_eq
        by (rewrite Hlen; by eapply lookup_lt_Some).
      intros [= ->]. rewrite Huj in Hi. injection Hi as <-. by apply Hdone.
    + rewrite list_lookup_insert_ne by done. by apply Hd.
Qed.

Lemma sibling_inv_step self tasks log slot :
  sibling_inv env self0 urls self tasks →
  let '(self', tasks', _) := step env (self, tasks, log) slot in
  sibling_inv env self0 urls self' tasks'.
Proof.
  intros Hinv. destruct slot as [j now]. unfold step.
  destruct (tasks !! j) as [[u|u|r]|] eqn:Hj; [| |done..].
  - (* the task starts *)
    pose proof (si_url _ _ _ _ _ Hinv j u (or_introl Hj)) as Huj.
    destruct (_check_cache self now u) as [cached|] eqn:Hc.
    + apply (sibling_inv_insert self tasks j u); [done..| |]; [naive_solver|].
      intros r [= <-]. apply _check_cache_elem in Hc as (Hon & e & He & ->).
      destruct (si_cache _ _ _ _ _ Hinv u e He) as [H0|Hfresh].
      * left. split; [|eauto].
        destruct (si_settings _ _ _ _ _ Hinv) as (_ & _ & _ & _ & _ & Hen & _).
        congruence.
      * by right.
    + apply (sibling_inv_insert self tasks j u); [done..| |]; naive_solver.
  - (* the task resumes and finishes *)
    pose proof (si_url _ _ _ _ _ Hinv j u (or_intror Hj)) as Huj.
    pose proof (analyze_fresh_settings env self0 self 0 now u
                  (si_settings _ _ _ _ _ Hinv)) as Hentry.
    destruct (analyze_fresh env self now u) as [e|[r self']] eqn:Hf.
    + apply (sibling_inv_insert self tasks j u); [done..| |]; [naive_solver|].
      intros r [= <-]. by right.
    + simpl in Hentry. subst r.
      assert (sibling_inv env self0 urls self' tasks) as Hinv'.
      { apply analyze_fresh_inr in Hf as [_ [->| ->]]; [done|].
        destruct Hinv as [Hs Hlen Hcache Hu Hd].
        split; [|done| |done|done].
        - eapply same_settings_trans; [exact Hs|apply same_settings_update_cache].
        - intros k e He. apply _update_cache_elem in He as [He|[-> He]];
            [by apply Hcache|by right]. }
      apply (sibling_inv_insert self' tasks j u); [done..| |]; [naive_solver|].
      intros r [= <-]. by right.
Qed.

Lemma sibling_inv_run sched log :
  let '(self, tasks, _) := foldl (step env) (self0, Pending <$> urls, log) sched in
  sibling_inv env self0 urls self tasks.
Proof.
  induction sched as [|slot s IH] using rev_ind; simpl.
  - apply sibling_inv_init.
  - rewrite foldl_app. simpl.
    destruct (foldl (step env) (self0, Pending <$> urls, log) s)
      as [[self tasks] log'].
    by apply (sibling_inv_step self tasks log' slot).
Qed.

End SiblingFacts.

Lemma own_entry_with_processing_urls env self s url r :
  own_entry env (with_processing_urls self s) url r →
  cached_before self url r ∨
  ∀ now, r = entry_of url (analyze_fresh env self now url).
Proof.
  intros [H| ->]; [by left|right]. intros now.
  by apply analyze_fresh_settings.
Qed.

(** C4: a batch whose analyzer opens and closes and that is not cancelled
    sends exactly one entry per admitted URL, at the index of the URL, and
    the entry is the one of that URL alone, whatever the other URLs of the
    batch return or raise: a value that the cache held for the URL before
    the batch, or what the code after the cache miss gives for it. An
    exception that reaches the [except] of [_process_single_url] becomes the
    entry with the error marker and without screenshot, the plugin being
    left as it was; such an exception comes from the fetch, the content
    extraction or the screenshot. An exception raised in the translation or
    in the call of the language model is handled there and does not reach
    that [except]. *)
Theorem batch_yields_one_entry_per_admitted_url env self run urls :
  aenter_error run = None →
  aexit_error run = None →
  send_cancelled run = false →
  complete (length (admitted self urls)) (schedule run) = true →
  admitted self urls ≠ [] →
  (∀ self' t0 t1 url e,
     _check_cache self' t0 url = None →
     analyze_fresh env self' t1 url = inl e →
     _process_single_url env self' t0 t1 url = (error_result url e, self') ∧
     String.prefix "❌" (rd_result (error_result url e)) = true ∧
     rd_screenshot (error_result url e) = None ∧
     (fetch_webpage env url = inl e ∨
      (∃ html, fetch_webpage env url = inr (Some html) ∧
         extract_content env html url = inl e) ∨
      (enable_screenshot self' = true ∧ capture_screenshot env url = inl e))) ∧
  ∃ analysis_results self' log,
    _batch_process_urls env self run urls = (Sent analysis_results, self', log) ∧
    length analysis_results = length (admitted self urls) ∧
    ∀ i url, admitted self urls !! i = Some url →
      ∃ r, analysis_results !! i = Some r ∧
        (cached_before self url r ∨
         ∀ now, r = entry_of url (analyze_fresh env self now url)).
Proof.
  intros Henter Hexit Hsend Hcomplete Hne. split.
  { intros self' t0 t1 url e Hc Hf. split; [|split; [done|split; [done|]]].
    - by apply _process_single_url_raise.
    - by eapply analyze_fresh_raises. }
  rewrite _batch_process_urls_unfold. simpl.
  destruct (admitted self urls) as [|u f] eqn:Hadm; [done|].
  unfold process_admitted, gather. rewrite Henter, Hexit, Hsend.
  match goal with |- context [foldl (step env) (?s, Pending <$> ?l, ?g) ?sc] =>
    pose proof (gather_inv_run env s l (λ _, True) (λ _ _ _ _ _ _, I) sc g I) as Hinv;
    pose proof (sibling_inv_run env s l sc g) as Hsib;
    destruct (foldl (step env) (s, Pending <$> l, g) sc) as [[self' tasks] log]
  end.
  destruct (gather_inv_complete _ _ _ _ _ _ _ Hinv Hcomplete)
    as (rs & Hrs & Hlen & Hprod).
  rewrite Hrs. eexists rs, _, _. split; [done|]. split; [done|].
  intros i url Hi. destruct (Hprod i url Hi) as (r & Hr & _).
  exists r. split; [done|].
  eapply own_entry_with_processing_urls, (si_done _ _ _ _ _ Hsib i url r Hi).
  rewrite (results_of_lookup tasks rs i Hrs), Hr. done.
Qed.

Lemma batch_yields_one_entry_per_admitted_url_witness :
  ∃ self' log,
    _batch_process_urls one_failing_env sample_plugin
      (quiet_run (in_order 2 0 1)) ["https://a.example"; "https://b.example"]
    = (Sent [error_result "https://a.example" (Exception "connection refused");
             {| rd_url := "https://b.example";
                rd_result := "summary of https://b.example";
                rd_screenshot := None |}],
       self', log).
Proof.
  destruct (batch_yields_one_entry_per_admitted_url one_failing_env
              sample_plugin (quiet_run (in_order 2 0 1))
              ["https://a.example"; "https://b.example"])
    as (_ & rs & self' & log & Hbatch & _); try done.
  exists self', log. rewrite Hbatch. f_equal. f_equal.
  by vm_compute in Hbatch; injection Hbatch as <- _ _.
Defined.

(** C4, at an input where the claim as the specification words it fails:
    with translation on, the call of the language model raises for the
    translation prompt. The exception is handled in [_translate_content],
    which goes on with the untranslated content, and the batch sends an
    entry whose text has no error marker and that carries a screenshot. *)
Lemma translation_error_gives_unmarked_entry :
  llm_generate translation_failing_env "provider"
    ("translate: " +:+ "<html>https://a.example")
  = inl (Exception "timeout") ∧
  (_batch_process_urls translation_failing_env translating_plugin
     (quiet_run (in_order 1 0 1)) ["https://a.example"]).1.1
  = Sent [{| rd_url := "https://a.example"; rd_result := "a summary";
             rd_screenshot := Some "png" |}] ∧
  String.prefix "❌" "a summary" = false.
Proof. repeat split; by vm_compute. Qed.

(** * Further properties of the code *)

(** ** The language model steps *)



(** X2: [analyze_with_llm] returns one of three texts: the basic analysis of
    [get_enhanced_analysis], the report built around a non-empty answer of
    the model, or the text with the error marker and the message of an
    exception; the last only when a step of the model call raised. With the
    model turned off or not attached it is the basic analysis, whatever the
    other services do. *)
Theorem analyze_with_llm_outcomes env self cd :
  let out := analyze_with_llm env self cd in
  (out = get_enhanced_analysis env cd ∨
   (∃ provider prompt text,
      provider_id env self = inr (Some provider) ∧
      analysis_prompt env cd = inr prompt ∧
      llm_generate env provider prompt = inr (Some text) ∧ text ≠ "" ∧
      out = format_report env cd text) ∨
   (∃ e, out = "❌ LLM分析过程中出现错误: " +:+ str e ∧
      (provider_id env self = inl e ∨ analysis_prompt env cd = inl e ∨
       ∃ provider prompt, llm_generate env provider prompt = inl e))) ∧
  (has_llm_generate env = false ∨ llm_enabled self = false →
   out = get_enhanced_analysis env cd).
Proof.
  intros out. subst out. unfold analyze_with_llm.
  destruct (has_llm_generate env) eqn:Hllm; simpl; [|split; auto].
  destruct (llm_enabled self) eqn:Hen; simpl; [|split; auto].
  split; [|intros [?|?]; congruence].
  destruct (provider_id env self) as [e|[provider|]] eqn:Hp; simpl;
    [right; right; eauto| |by left].
  destruct (bool_decide (provider = "")) eqn:Hempty; simpl; [by left|].
  apply bool_decide_eq_false in Hempty.
  destruct (analysis_prompt env cd) as [e|prompt] eqn:Hprompt; simpl;
    [right; right; eauto|].
  destruct (llm_generate env provider prompt) as [e|[text|]] eqn:Hgen; simpl.
  - right; right. exists e. split; [done|]. right; right. eauto.
  - destruct (bool_decide (text = "")) eqn:Htext; simpl; [by left|].
    apply bool_decide_eq_false in Htext.
    right; left. exists provider, prompt, text. by repeat split.
  - by left.
Qed.

(** ** Write-through and what every state of the plugin satisfies *)

Lemma get_set_eq c now k v t :
  CacheManager.get (CacheManager.set c now k v) t k
  = if bool_decide (t < now + CacheManager.expire_time c) then Some v else None.
Proof.
  unfold CacheManager.get, CacheManager.set.
  destruct (CacheManager.find k (CacheManager.entries c)) as [e|] eqn:Hf; simpl.
  - rewrite CacheFacts.find_replace_eq by (by rewrite Hf). done.
  - rewrite CacheFacts.find_app.
    assert (CacheManager.find k
              (if decide (Z.of_nat (length (CacheManager.entries c))
                          = CacheManager.max_size c)
               then tail (CacheManager.entries c) else CacheManager.entries c)
            = None) as ->.
    { destruct (decide _); [|done].
      apply CacheFacts.find_None. apply CacheFacts.find_None in Hf.
      intros Hin. apply Hf. destruct (CacheManager.entries c); [done|].
      simpl in *. by right. }
    simpl. by rewrite decide_True.
Qed.

Lemma _check_cache_update_eq self now url r t :
  enable_cache self = true →
  _check_cache (_update_cache self now url r) t url
  = if bool_decide (t < now + CacheManager.expire_time (cache_manager self))
    then Some r else None.
Proof.
  intros Hen. unfold _check_cache, _update_cache. rewrite Hen. simpl.
  rewrite Hen. simpl. apply get_set_eq.
Qed.

(** X3: write-through. When the page of a URL is fetched and parsed and the
    screenshot, if enabled, does not raise, [_process_single_url] returns an
    entry for the URL and stores it: until the expiry time has passed since
    the write, a lookup returns that entry and [_process_single_url] returns
    it unchanged whatever the services would do; from the expiry time on the
    lookup is a miss. *)
Theorem fresh_analysis_is_served_from_cache env self t0 now url html cd :
  enable_cache self = true →
  _check_cache self t0 url = None →
  fetch_webpage env url = inr html →
  truthy html = true →
  extract_content env (default "" html) url = inr (Some cd) →
  (enable_screenshot self = true → ∃ shot, capture_screenshot env url = inr shot) →
  ∃ r self',
    _process_single_url env self t0 now url = (r, self') ∧
    rd_url r = url ∧
    (∀ t, t < now + CacheManager.expire_time (cache_manager self) →
       _check_cache self' t url = Some r ∧
       ∀ env' t1, _process_single_url env' self' t t1 url = (r, self')) ∧
    (∀ t, now + CacheManager.expire_time (cache_manager self) ≤ t →
       _check_cache self' t url = None).
Proof.
  intros Hen Hmiss Hfetch Hhtml Hparse Hshot.
  unfold _process_single_url, analyze_fresh.
  rewrite Hmiss, Hfetch. simpl. rewrite Hhtml. simpl. rewrite Hparse. simpl.
  assert (∃ shot, (if enable_screenshot self then capture_screenshot env url
                   else mret None) = inr shot) as [shot ->].
  { destruct (enable_screenshot self); [by apply Hshot|by exists None]. }
  cbn [mbind res_bind mret res_ret].
  eexists _, _. split; [done|]. split; [done|]. split.
  - intros t Ht.
    rewrite _check_cache_update_eq, bool_decide_eq_true_2 by done. done.
  - intros t Ht.
    rewrite _check_cache_update_eq, bool_decide_eq_false_2 by (done || lia).
    done.
Qed.

Lemma fresh_analysis_is_served_from_cache_witness :
  ∃ r self',
    _process_single_url sample_env sample_plugin 0 1 "https://a.example"
    = (r, self') ∧
    _check_cache self' 1440 "https://a.example" = Some r ∧
    _check_cache self' 1441 "https://a.example" = None.
Proof.
  destruct (fresh_analysis_is_served_from_cache sample_env sample_plugin 0 1
              "https://a.example" (Some "<html>https://a.example")
              {| cd_title := "title"; cd_content := "<html>https://a.example";
                 cd_url := "https://a.example" |})
    as (r & self' & Hrun & _ & Hhit & Hmiss); try done.
  exists r, self'. split; [done|]. split.
  - by apply (Hhit 1440).
  - by apply (Hmiss 1441).
Defined.

Lemma plugin_ok_update self now url r :
  plugin_ok self → rd_url r = url → plugin_ok (_update_cache self now url r).
Proof.
  intros (Hwk & Hpos & Hlen) Hr. unfold plugin_ok, _update_cache.
  destruct (enable_cache self); simpl; [|done].
  rewrite CacheFacts.set_max_size.
  split; [by apply CacheFacts.set_well_keyed|]. split; [done|].
  by apply CacheFacts.set_length.
Qed.

Lemma batch_keeps_plugin_ok env self run urls :
  plugin_ok self → plugin_ok (_batch_process_urls env self run urls).1.2.
Proof.
  intros Hok. rewrite _batch_process_urls_unfold. cbn zeta.
  destruct (admitted self urls) as [|u f]; [done|].
  set (self1 := with_processing_urls self _).
  unfold process_admitted, gather.
  destruct (aenter_error run); [done|].
  pose proof (gather_inv_run env self1 (u :: f) plugin_ok plugin_ok_update
                (schedule run) [Enter] Hok) as Hinv.
  destruct (foldl (step env) (self1, Pending <$> (u :: f), [Enter]) (schedule run))
    as [[self' tasks] log].
  destruct Hinv as [_ HQ _ _ _].
  destruct (results_of tasks); [|done].
  destruct (aexit_error run); [done|]. by destruct (send_cancelled run).
Qed.

Lemma batch_keeps_settings env self run urls :
  same_settings self (_batch_process_urls env self run urls).1.2.
Proof.
  rewrite _batch_process_urls_unfold. cbn zeta.
  destruct (admitted self urls) as [|u f]; [apply same_settings_refl|].
  pose proof (process_admitted_frame env
    (with_processing_urls self (processing_urls self ∪ list_to_set (u :: f)))
    run (u :: f)) as Hframe.
  destruct (process_admitted env _ run (u :: f)) as [[out self2] log].
  by destruct Hframe as [_ Hs].
Qed.

Lemma batch_restores_processing_urls env self run urls :
  processing_urls (_batch_process_urls env self run urls).1.2
  = processing_urls self.
Proof.
  rewrite _batch_process_urls_unfold. simpl.
  assert (∀ url, url ∈ admitted self urls → url ∉ processing_urls self) as Hout.
  { intros url. unfold admitted.
    rewrite admission_admission_rec, admission_rec_elem. tauto. }
  destruct (admitted self urls) as [|u f] eqn:Hadm; [done|].
  pose proof (process_admitted_frame env
    (with_processing_urls self (processing_urls self ∪ list_to_set (u :: f)))
    run (u :: f)) as Hframe.
  destruct (process_admitted env _ run (u :: f)) as [[out self2] log].
  destruct Hframe as [Hp _]. cbn [processing_urls with_processing_urls] in *.
  cbn [fst snd]. rewrite Hp, release_difference.
  cbn [processing_urls with_processing_urls]. apply set_eq. intros k. rewrite elem_of_difference, elem_of_union.
  rewrite elem_of_list_to_set. specialize (Hout k). tauto.
Qed.

Lemma init_plugin_ok config : plugin_ok (init config).
Proof.
  split; [by intros k e ?%elem_of_nil|]. unfold init. simpl.
  destruct (cfg_cache_settings config) as [[en minutes size]|]; simpl; lia.
Qed.

(** X4: from the plugin that the constructor builds, after any sequence of
    batches, with whatever services, schedules, failures and cancellations:
    no URL is left in [processing_urls], the cache holds at most
    [max_cache_size] entries, every cached value is an entry for its own
    URL, and the settings are those of the constructor. *)
Theorem plugin_state_after_any_batches config calls :
  let self := after_batches (init config) calls in
  processing_urls self = ∅ ∧
  Z.of_nat (length (CacheManager.entries (cache_manager self)))
  ≤ max_cache_size (init config) ∧
  CacheManager.well_keyed (cache_manager self) ∧
  same_settings (init config) self.
Proof.
  intros self. subst self.
  pose proof (init_plugin_ok config) as Hok0.
  assert (∀ self0,
    plugin_ok self0 →
    plugin_ok (after_batches self0 calls) ∧
    processing_urls (after_batches self0 calls) = processing_urls self0 ∧
    same_settings self0 (after_batches self0 calls)) as Hgen.
  { induction calls as [|c calls IH]; intros self0 Hok; simpl.
    - split; [done|]. split; [done|apply same_settings_refl].
    - pose proof (batch_keeps_plugin_ok (bc_env c) self0 (bc_run c) (bc_urls c) Hok)
        as Hok1.
      pose proof (batch_keeps_settings (bc_env c) self0 (bc_run c) (bc_urls c))
        as Hs1.
      pose proof (batch_restores_processing_urls (bc_env c) self0 (bc_run c)
                    (bc_urls c)) as Hp1.
      destruct (_batch_process_urls (bc_env c) self0 (bc_run c) (bc_urls c))
        as [[out self1] log]. simpl in *.
      destruct (IH self1 Hok1) as (Hok2 & Hp2 & Hs2).
      split; [done|]. split; [congruence|].
      by eapply same_settings_trans. }
  destruct (Hgen (init config) Hok0) as ((Hwk & _ & Hlen) & Hp & Hs).
  split; [done|]. split; [|done].
  destruct Hs as (_ & _ & _ & _ & _ & _ & Hmax & _). simpl in Hmax.
  rewrite <- Hmax in Hlen. done.
Qed.

(** ** Lines and substrings *)

Lemma prefix_spec needle hay :
  String.prefix needle hay = true ↔ ∃ suf, hay = needle +:+ suf.
Proof.
  revert needle. induction hay as [|c' hay IH]; intros [|c needle]; simpl.
  - split; [by exists ""|done].
  - split; [done|by intros [? ?]].
  - split; [by exists (String c' hay)|done].
  - destruct (Ascii.ascii_dec c c') as [->|Hne].
    + rewrite IH. split; intros [suf H]; exists suf; [by rewrite H|by injection H].
    + split; [done|]. intros [suf [= ? _]]. done.
Qed.

Lemma is_substring_spec needle hay :
  is_substring needle hay = true ↔ ∃ pre suf, hay = pre +:+ needle +:+ suf.
Proof.
  induction hay as [|c hay IH]; cbn [is_substring].
  - rewrite orb_false_r, prefix_spec. split.
    + intros [suf H]. by exists "", suf.
    + intros (pre & suf & H). destruct pre; [by exists suf|done].
  - rewrite orb_true_iff, prefix_spec, IH. split.
    + intros [[suf H]|(pre & suf & H)].
      * by exists "", suf.
      * exists (String c pre), suf. simpl. by rewrite H.
    + intros (pre & suf & H). destruct pre as [|c' pre]; simpl in H.
      * left. by exists suf.
      * right. injection H as _ H. by exists pre, suf.
Qed.

Lemma split_lines_cons_line line rest :
  split_lines line = [line] →
  split_lines (line +:+ String LF_char rest) = line :: split_lines rest.
Proof.
  induction line as [|c line IH]; simpl.
  - done.
  - destruct (decide (c = LF_char)); [done|].
    destruct (split_lines line) as [|x xs] eqn:Hx.
    + intros [= Hl]. destruct line; [|done]. simpl in Hx.
      discriminate.
    + intros [= -> ->]. by rewrite IH.
Qed.

Lemma split_lines_join lines :
  lines ≠ [] →
  (∀ line, line ∈ lines → split_lines line = [line]) →
  split_lines (join_lines lines) = lines.
Proof.
  unfold join_lines. induction lines as [|line lines IH]; [done|].
  intros _ Hlines. destruct lines as [|line' lines].
  - simpl. apply Hlines. by left.
  - change (String.concat LF (line :: line' :: lines))
      with (line +:+ String LF_char (String.concat LF (line' :: lines))).
    rewrite split_lines_cons_line by (apply Hlines; by left).
    f_equal. apply IH; [done|]. intros l Hl. apply Hlines. by right.
Qed.

Lemma filter_all (P : string → Prop) `{∀ x, Decision (P x)} (l : list string) :
  (∀ x, x ∈ l → P x) → filter P l = l.
Proof.
  induction l as [|x l IH]; intros Hall; [done|].
  rewrite filter_cons, decide_True by (apply Hall; by left).
  f_equal. apply IH. intros y Hy. apply Hall. by right.
Qed.

(** ** The lists of domains and groups *)

(** Parsing a list text gives no empty entry, gives nothing for the
    empty text, and every entry is the stripped form of a line of the text;
    a line that strips to a non-empty text is kept. *)
Lemma parse_lines_entries py text :
  _parse_group_list py text = _parse_domain_list py text ∧
  _parse_group_list py "" = [] ∧
  (∀ entry, entry ∈ _parse_group_list py text ↔
     text ≠ "" ∧ entry ≠ "" ∧
     ∃ line, line ∈ split_lines text ∧ entry = py_strip py line).
Proof.
  split; [done|]. split; [done|].
  intros entry. unfold _parse_group_list, parse_lines.
  destruct (decide (text = "")) as [->|Hne].
  - split; [by intros ?%elem_of_nil|by intros (? & _)].
  - rewrite list_elem_of_filter, list_elem_of_fmap. naive_solver.
Qed.

(** X5: the blacklist survives saving and reloading: when every group id is
    a non-empty single line that [strip] leaves as it is, parsing the text
    that [_save_group_blacklist] stores gives back the list. *)
Theorem blacklist_survives_reload py acc :
  (∀ g, g ∈ group_blacklist acc →
     g ≠ "" ∧ py_strip py g = g ∧ split_lines g = [g]) →
  _parse_group_list py (config_group_blacklist (_save_group_blacklist acc))
  = group_blacklist acc.
Proof.
  intros Hg. unfold _parse_group_list, parse_lines, _save_group_blacklist. simpl.
  destruct (group_blacklist acc) as [|g groups] eqn:Hl; [done|].
  rewrite decide_False.
  - rewrite split_lines_join; [|done|intros l Hin; by apply Hg].
    assert (py_strip py <$> (g :: groups) = g :: groups) as ->.
    { rewrite <- (list_fmap_id (g :: groups)) at 2.
      apply list_fmap_ext. intros i x Hx. simpl.
      apply Hg. by eapply list_elem_of_lookup_2. }
    apply filter_all. intros x Hx. by apply Hg.
  - destruct (Hg g) as (Hne & _); [by left|].
    unfold join_lines. destruct g; [done|]. by destruct groups.
Qed.

Lemma blacklist_survives_reload_witness :
  _parse_group_list sample_py
    (config_group_blacklist (_save_group_blacklist sample_access))
  = ["1001"; "1002"].
Proof.
  apply (blacklist_survives_reload sample_py sample_access).
  intros g Hg. simpl in Hg.
  assert (g = "1001" ∨ g = "1002") as [-> | ->] by set_solver; done.
Defined.

(** ** The blacklist of groups *)

Lemma _is_group_blacklisted_spec acc g :
  _is_group_blacklisted acc g = true ↔ g ≠ "" ∧ g ∈ group_blacklist acc.
Proof.
  unfold _is_group_blacklisted.
  destruct (bool_decide (g = "")) eqn:Hg; simpl.
  - apply bool_decide_eq_true in Hg. naive_solver.
  - apply bool_decide_eq_false in Hg.
    destruct (group_blacklist acc) as [|x l]; simpl.
    + split; [done|]. by intros [_ ?%elem_of_nil].
    + rewrite bool_decide_eq_true. naive_solver.
Qed.

Lemma _is_group_blacklisted_ext acc acc' g :
  (g ∈ group_blacklist acc' ↔ g ∈ group_blacklist acc) →
  _is_group_blacklisted acc' g = _is_group_blacklisted acc g.
Proof.
  intros H. apply eq_true_iff_eq.
  rewrite !_is_group_blacklisted_spec. naive_solver.
Qed.

Lemma list_remove_elem x y l : y ∈ list_remove x l → y ∈ l.
Proof.
  induction l as [|z l IH]; simpl; [done|].
  destruct (decide (z = x)); [by right|].
  rewrite !elem_of_cons. naive_solver.
Qed.

Lemma list_remove_elem_ne x y l : y ≠ x → y ∈ list_remove x l ↔ y ∈ l.
Proof.
  intros Hne. induction l as [|z l IH]; simpl; [done|].
  destruct (decide (z = x)) as [->|].
  - rewrite elem_of_cons. naive_solver.
  - rewrite !elem_of_cons. naive_solver.
Qed.

Lemma list_remove_NoDup x l :
  NoDup l → NoDup (list_remove x l) ∧ x ∉ list_remove x l.
Proof.
  induction 1 as [|z l Hz Hnd [IH1 IH2]]; simpl.
  - split; [constructor|by intros ?%elem_of_nil].
  - destruct (decide (z = x)) as [->|Hne]; [done|].
    split.
    + constructor; [|done]. intros Hin. by apply Hz, (list_remove_elem x).
    + rewrite elem_of_cons. naive_solver.
Qed.

Lemma list_remove_twice x l i j :
  i ≠ j → l !! i = Some x → l !! j = Some x → x ∈ list_remove x l.
Proof.
  revert i j. induction l as [|z l IH]; intros i j Hij Hi Hj; [done|].
  simpl. destruct (decide (z = x)) as [->|Hne].
  - destruct i as [|i], j as [|j]; try done; simpl in *.
    + by eapply list_elem_of_lookup_2.
    + by eapply list_elem_of_lookup_2.
    + by eapply list_elem_of_lookup_2.
  - destruct i as [|i], j as [|j]; simplify_eq/=.
    right. apply (IH i j); [congruence|done|done].
Qed.

(** X6: the command [add]. With a non-empty group id as third word, the
    group is on the blacklist afterwards: appended at the end when it was
    not there, and the list unchanged when it was. No other group changes
    its status, and a list without duplicates stays so. *)
Theorem blacklist_add py acc message_str cmd action g rest :
  split_ws py (py_strip py message_str) = cmd :: action :: g :: rest →
  lower py action = "add" →
  g ≠ "" →
  let '(_, acc') := manage_group_blacklist py acc message_str in
  _is_group_blacklisted acc' g = true ∧
  group_blacklist acc'
  = (if decide (g ∈ group_blacklist acc) then group_blacklist acc
     else group_blacklist acc ++ [g]) ∧
  (∀ h, h ≠ g → _is_group_blacklisted acc' h = _is_group_blacklisted acc h) ∧
  (NoDup (group_blacklist acc) → NoDup (group_blacklist acc')).
Proof.
  intros Hparts Haction Hg. unfold manage_group_blacklist.
  rewrite Hparts. simpl. rewrite Haction.
  rewrite bool_decide_eq_true_2 by done.
  rewrite (bool_decide_eq_false_2 (g = "")) by done. simpl.
  destruct (decide (g ∈ group_blacklist acc)) as [Hin|Hout].
  - rewrite bool_decide_eq_true_2 by done.
    repeat split; try done. by apply _is_group_blacklisted_spec.
  - rewrite bool_decide_eq_false_2 by done. simpl. repeat split.
    + apply _is_group_blacklisted_spec. simpl. set_solver.
    + intros h Hne. apply _is_group_blacklisted_ext. simpl. set_solver.
    + intros Hnd. apply NoDup_app. repeat split; [done|set_solver|].
      apply NoDup_singleton.
Qed.

Lemma blacklist_add_witness :
  group_blacklist
    (manage_group_blacklist sample_py sample_access " /group_blacklist ADD 1003 ").2
  = ["1001"; "1002"; "1003"].
Proof.
  pose proof (blacklist_add sample_py sample_access " /group_blacklist ADD 1003 "
                "/group_blacklist" "ADD" "1003" [] eq_refl eq_refl) as H.
  destruct (manage_group_blacklist sample_py sample_access _) as [reply acc'].
  destruct H as (_ & Hl & _); [done|]. simpl. rewrite Hl. by vm_compute.
Defined.

(** X7: the command [remove]. With a non-empty group id as third word, the
    first occurrence of the group leaves the list. On a list without
    duplicates the group is not blacklisted afterwards; when the list, as
    parsed from a configuration, holds the group twice, the group stays
    blacklisted. No other group changes its status. *)
Theorem blacklist_remove py acc message_str cmd action g rest :
  split_ws py (py_strip py message_str) = cmd :: action :: g :: rest →
  lower py action = "remove" →
  g ≠ "" →
  let '(_, acc') := manage_group_blacklist py acc message_str in
  group_blacklist acc' = list_remove g (group_blacklist acc) ∧
  (NoDup (group_blacklist acc) →
   _is_group_blacklisted acc' g = false ∧ NoDup (group_blacklist acc')) ∧
  (∀ i j, i ≠ j →
     group_blacklist acc !! i = Some g → group_blacklist acc !! j = Some g →
     _is_group_blacklisted acc' g = true) ∧
  (∀ h, h ≠ g → _is_group_blacklisted acc' h = _is_group_blacklisted acc h).
Proof.
  intros Hparts Haction Hg. unfold manage_group_blacklist.
  rewrite Hparts. simpl. rewrite Haction.
  rewrite (bool_decide_eq_false_2 ("remove" = "add")) by discriminate.
  rewrite (bool_decide_eq_true_2 ("remove" = "remove")) by done.
  rewrite (bool_decide_eq_false_2 (g = "")) by done. simpl.
  assert (∀ acc', group_blacklist acc' = list_remove g (group_blacklist acc) →
    (NoDup (group_blacklist acc) →
     _is_group_blacklisted acc' g = false ∧ NoDup (group_blacklist acc')) ∧
    (∀ i j, i ≠ j →
       group_blacklist acc !! i = Some g → group_blacklist acc !! j = Some g →
       _is_group_blacklisted acc' g = true) ∧
    (∀ h, h ≠ g → _is_group_blacklisted acc' h = _is_group_blacklisted acc h))
    as Hgen.
  { intros acc' Hl. repeat split.
    - apply not_true_is_false. rewrite _is_group_blacklisted_spec, Hl.
      intros [_ Hin]. by apply (list_remove_NoDup g _ H).
    - rewrite Hl. by apply list_remove_NoDup.
    - intros i j Hij Hi Hj. apply _is_group_blacklisted_spec. rewrite Hl.
      split; [done|]. by eapply list_remove_twice.
    - intros h Hne. apply _is_group_blacklisted_ext. rewrite Hl.
      by apply list_remove_elem_ne. }
  destruct (decide (g ∈ group_blacklist acc)) as [Hin|Hout].
  - rewrite bool_decide_eq_true_2 by done. simpl. split; [done|]. by apply Hgen.
  - rewrite bool_decide_eq_false_2 by done. simpl.
    assert (list_remove g (group_blacklist acc) = group_blacklist acc) as Hsame.
    { clear -Hout. induction (group_blacklist acc) as [|z l IH]; [done|]. simpl.
      rewrite decide_False by set_solver. f_equal. apply IH. set_solver. }
    split; [done|]. by apply Hgen.
Qed.

Lemma blacklist_remove_witness :
  let acc' :=
    (manage_group_blacklist sample_py sample_access "/group_blacklist remove 1001").2 in
  group_blacklist acc' = ["1002"] ∧ _is_group_blacklisted acc' "1001" = false.
Proof.
  intros acc'. subst acc'.
  pose proof (blacklist_remove sample_py sample_access "/group_blacklist remove 1001"
                "/group_blacklist" "remove" "1001" [] eq_refl eq_refl) as H.
  destruct (manage_group_blacklist sample_py sample_access _) as [reply acc'].
  destruct H as (Hl & Hnd & _); [done|]. simpl.
  split; [rewrite Hl; by vm_compute|].
  apply Hnd. simpl. repeat (constructor; [set_solver|]). constructor.
Defined.

(** X8: whatever the message, [manage_group_blacklist] leaves the domain
    lists and the other attributes alone, keeps a list without duplicates
    and without empty id so, and stores the list in the configuration
    whenever it changes it (the stored text is the list, one id per line).
    With fewer than two words it changes nothing; with [clear] as second
    word the list is empty afterwards. *)
Theorem blacklist_command_invariant py acc message_str :
  let parts := split_ws py (py_strip py message_str) in
  let '(_, acc') := manage_group_blacklist py acc message_str in
  allowed_domains acc' = allowed_domains acc ∧
  blocked_domains acc' = blocked_domains acc ∧
  auto_analyze acc' = auto_analyze acc ∧
  merge_forward_enabled acc' = merge_forward_enabled acc ∧
  screenshot_format acc' = screenshot_format acc ∧
  (acc' = acc ∨
   config_group_blacklist acc' = join_lines (group_blacklist acc')) ∧
  (NoDup (group_blacklist acc) → NoDup (group_blacklist acc')) ∧
  ("" ∉ group_blacklist acc → "" ∉ group_blacklist acc') ∧
  ((length parts ≤ 1)%nat → acc' = acc) ∧
  (∀ action, parts !! 1%nat = Some action → lower py action = "clear" →
     group_blacklist acc' = []).
Proof.
  intros parts. subst parts. unfold manage_group_blacklist.
  destruct (split_ws py (py_strip py message_str)) as [|cmd [|action rest]];
    [destruct (group_blacklist acc) eqn:Hl; rewrite ?Hl;
       repeat split; try done; by left..|].
  cbn [length lookup list_lookup].
  set (g := default "" (head rest)).
  repeat case_bool_decide; simpl;
    repeat match goal with
           | |- context [match group_blacklist acc with _ => _ end] =>
               destruct (group_blacklist acc) eqn:Hl; simpl; rewrite ?Hl
           end;
    (split; [done|]); (split; [done|]); (split; [done|]);
    (split; [done|]); (split; [done|]).
  all: split; [first [by left|by right]|].
  all: split;
    [first [done
           |intros Hnd; apply NoDup_app; repeat split;
              [done|set_solver|apply NoDup_singleton]
           |intros Hnd; by apply list_remove_NoDup
           |intros _; constructor]|].
  all: split;
    [first [done
           |intros Hno Hin; by apply Hno, (list_remove_elem g)
           |set_solver
           |by intros _ ?%elem_of_nil]|].
  all: split; [intros; lia|].
  all: intros a [= <-] Hc; simpl; rewrite ?Hl; first [done|congruence].
Qed.

(** ** Allowed domains *)

(** X9: [_is_domain_allowed] accepts a URL exactly when the URL parses, no
    blocked domain (lowered) occurs anywhere in its lowered network
    location, and the list of allowed domains is empty or one of its entries
    (lowered) occurs in that location. A blocked entry wins over an allowed
    one, a URL whose parsing raises is rejected, and the match is by
    containment, not by equality. *)
Theorem domain_allowed_spec py acc url :
  let occurs entry netloc :=
    ∃ pre suf, lower py netloc = pre +:+ lower py entry +:+ suf in
  _is_domain_allowed py acc url = true ↔
  ∃ scheme netloc,
    urlparse py url = inr (scheme, netloc) ∧
    (∀ b, b ∈ blocked_domains acc → ¬ occurs b netloc) ∧
    (allowed_domains acc = [] ∨ ∃ a, a ∈ allowed_domains acc ∧ occurs a netloc).
Proof.
  intros occurs. unfold _is_domain_allowed.
  assert (∀ l netloc,
    existsb (λ d, is_substring (lower py d) (lower py netloc)) l = true
    ↔ ∃ d, d ∈ l ∧ occurs d netloc) as Hex.
  { intros l netloc. rewrite existsb_exists. unfold occurs.
    setoid_rewrite is_substring_spec. setoid_rewrite list_elem_of_In. done. }
  destruct (urlparse py url) as [e|[scheme netloc]].
  { split; [done|]. by intros (? & ? & ? & _). }
  destruct (existsb _ (blocked_domains acc)) eqn:Hb.
  - apply Hex in Hb as (b & Hin & Hocc). split; [done|].
    intros (s & n & [= <- <-] & Hnone & _). by destruct (Hnone b Hin).
  - assert (∀ b, b ∈ blocked_domains acc → ¬ occurs b netloc) as Hnone.
    { intros b Hin Hocc. apply not_true_iff_false in Hb. apply Hb, Hex. eauto. }
    destruct (allowed_domains acc) as [|a l] eqn:Ha.
    + split; [|done]. intros _. exists scheme, netloc. auto.
    + rewrite Hex. split.
      * intros Hocc. exists scheme, netloc. auto.
      * intros (s & n & [= <- <-] & _ & [?|?]); [done|auto].
Qed.

(** ** What a batch fetches *)

Lemma gather_fetch_urls env (urls : list string) sched self tasks log :
  (∀ i u, tasks !! i = Some (Pending u) → u ∈ urls) →
  (∀ u, Fetch u ∈ log → u ∈ urls) →
  let '(_, _, log') := foldl (step env) (self, tasks, log) sched in
  ∀ u, Fetch u ∈ log' → u ∈ urls.
Proof.
  revert self tasks log.
  induction sched as [|[j now] sched IH]; intros self tasks log Hp Hl;
    cbn [foldl]; [done|].
  unfold step at 2.
  destruct (tasks !! j) as [[uj|uj|r]|] eqn:Hj; [| |by apply IH..].
  - destruct (_check_cache self now uj).
    + apply IH; [|done]. intros i u Hi.
      apply pending_after_insert in Hi as [_ Hi]; [by eapply Hp|done].
    + apply IH.
      * intros i u Hi.
        apply pending_after_insert in Hi as [_ Hi]; [by eapply Hp|done].
      * intros u. rewrite elem_of_app, list_elem_of_singleton.
        intros [?|[= ->]]; [by apply Hl|by eapply Hp].
  - destruct (analyze_fresh env self now uj) as [e|[r self']].
    + apply IH; [|done]. intros i u Hi.
      apply pending_after_insert in Hi as [_ Hi]; [by eapply Hp|done].
    + apply IH; [|done]. intros i u Hi.
      apply pending_after_insert in Hi as [_ Hi]; [by eapply Hp|done].
Qed.

(** The analyzer is called for admitted URLs only. *)
Lemma batch_fetch_admitted env self run urls u :
  Fetch u ∈ (_batch_process_urls env self run urls).2 → u ∈ admitted self urls.
Proof.
  rewrite _batch_process_urls_unfold. cbn zeta.
  destruct (admitted self urls) as [|a f] eqn:Hadm; [by intros ?%elem_of_nil|].
  set (self1 := with_processing_urls self _).
  unfold process_admitted, gather.
  destruct (aenter_error run); [by intros ?%elem_of_nil|].
  pose proof (gather_fetch_urls env (a :: f) (schedule run) self1
                (Pending <$> (a :: f)) [Enter]) as Hlog.
  destruct (foldl (step env) (self1, Pending <$> (a :: f), [Enter]) (schedule run))
    as [[self' tasks] log].
  assert (∀ u, Fetch u ∈ log → u ∈ a :: f) as Hin.
  { apply Hlog.
    - intros i x Hi. rewrite list_lookup_fmap in Hi.
      destruct ((a :: f) !! i) as [y|] eqn:Hy; simplify_eq/=.
      by eapply list_elem_of_lookup_2.
    - intros x Hx. apply list_elem_of_singleton in Hx. discriminate. }
  assert (∀ tail, (∀ x, Fetch x ∉ tail) → Fetch u ∈ log ++ tail → u ∈ a :: f)
    as Htail.
  { intros tail Hno. rewrite elem_of_app. intros [?|?]; [by apply Hin|].
    by destruct (Hno u). }
  destruct (results_of tasks) as [rs|]; simpl.
  - destruct (aexit_error run); simpl; [apply Htail; set_solver|].
    destruct (send_cancelled run); simpl; apply Htail; set_solver.
  - apply Htail. set_solver.
Qed.

Lemma admitted_elem self urls u :
  u ∈ admitted self urls ↔ u ∈ urls ∧ u ∉ processing_urls self.
Proof. unfold admitted. rewrite admission_admission_rec. apply admission_rec_elem. Qed.

(** ** The commands that start a batch *)

Lemma allowed_urls_of_elem py tools acc text u :
  u ∈ allowed_urls_of py tools acc text ↔
  u ∈ extract_urls tools text ∧ is_valid_url tools u = true ∧
  _is_domain_allowed py acc u = true.
Proof. unfold allowed_urls_of. rewrite !list_elem_of_filter. tauto. Qed.

(** X10: [analyze_webpage] calls the analyzer only for URLs that were
    extracted from the message, are valid, pass the domain rules and were
    not in flight; it leaves [processing_urls] as it found it. When no URL
    of the message passes, it replies with one text, changes nothing and
    opens no analyzer; otherwise it replies with a notice followed by what
    the batch yields. *)
Theorem analyze_webpage_fetches_allowed_only py tools env acc self event run :
  let allowed := allowed_urls_of py tools acc (message_str event) in
  let '(replies, self', log) := analyze_webpage py tools env acc self event run in
  (∀ u, Fetch u ∈ log →
     u ∈ extract_urls tools (message_str event) ∧
     is_valid_url tools u = true ∧ _is_domain_allowed py acc u = true ∧
     u ∉ processing_urls self) ∧
  processing_urls self' = processing_urls self ∧
  (allowed = [] → ∃ text, replies = [PlainResult text] ∧ self' = self ∧ log = []) ∧
  (allowed ≠ [] →
   ∃ notice, replies
     = [PlainResult notice;
        BatchResult (_batch_process_urls env self run allowed).1.1]).
Proof.
  intros allowed. subst allowed. unfold analyze_webpage, allowed_urls_of.
  destruct (extract_urls tools (message_str event)) as [|u0 us] eqn:Hex.
  { split; [by intros ? ?%elem_of_nil|]. split; [done|].
    split; [eauto|]. intros H. by destruct H. }
  destruct (filter _ (u0 :: us)) as [|v0 vs] eqn:Hval.
  { split; [by intros ? ?%elem_of_nil|]. split; [done|].
    split; [eauto|]. intros H. by destruct H. }
  destruct (filter _ (v0 :: vs)) as [|a0 as_] eqn:Hall.
  { split; [by intros ? ?%elem_of_nil|]. split; [done|].
    split; [eauto|]. intros H. by destruct H. }
  pose proof (batch_fetch_admitted env self run (a0 :: as_)) as Hfetch.
  pose proof (batch_restores_processing_urls env self run (a0 :: as_)) as Hrel.
  destruct (_batch_process_urls env self run (a0 :: as_)) as [[out self'] log].
  simpl in *.
  split; [|split; [done|split; [done|eauto]]].
  intros u Hu. apply Hfetch, admitted_elem in Hu as [Hin Hfree].
  rewrite <- Hall, list_elem_of_filter, <- Hval, list_elem_of_filter in Hin.
  tauto.
Qed.

Lemma is_substring_nil_keyword keyword :
  keyword ∈ command_keywords → is_substring keyword "" = false.
Proof.
  unfold command_keywords. intros Hin.
  repeat (apply elem_of_cons in Hin as [->|Hin]; [done|]).
  by apply elem_of_nil in Hin.
Qed.

(** X11: [auto_detect_urls] stays silent, changes nothing and opens no
    analyzer when automatic analysis is off, when the stripped message
    starts with a slash, when the event carries a command, when the raw
    message contains one of the command keywords, when the group of the
    event is blacklisted, or when no URL of the message passes the checks. *)
Theorem auto_detect_stays_silent py tools env acc self event run :
  auto_analyze acc = false ∨
  String.prefix "/" (py_strip py (message_str event)) = true ∨
  has_command event = true ∨
  (∃ text keyword, raw_text event = Some text ∧ keyword ∈ command_keywords ∧
     is_substring keyword text = true) ∨
  (∃ g, auto_group_id event = Some g ∧ _is_group_blacklisted acc g = true) ∨
  allowed_urls_of py tools acc (py_strip py (message_str event)) = [] →
  auto_detect_urls py tools env acc self event run = ([], self, []).
Proof.
  intros Hcase. unfold auto_detect_urls.
  destruct (auto_analyze acc); simpl; [|done].
  destruct (String.prefix "/" _); [done|].
  destruct (has_command event); [done|].
  match goal with
  | |- context [truthy (raw_text event) && ?b] =>
      destruct (truthy (raw_text event) && b) eqn:Hkw; [done|]
  end.
  destruct (truthy (auto_group_id event)
            && _is_group_blacklisted acc (default "" (auto_group_id event)))
    eqn:Hbl; [done|].
  fold (allowed_urls_of py tools acc (py_strip py (message_str event))).
  destruct Hcase as [?|[?|[?|[(text & kw & Hraw & Hin & Hsub)
                            |[(g & Hg & Hblack)|Hnone]]]]]; try done.
  - rewrite Hraw in Hkw. simpl in Hkw.
    assert (text ≠ "") as Hne.
    { intros ->. by rewrite is_substring_nil_keyword in Hsub. }
    rewrite (bool_decide_eq_false_2 _ Hne) in Hkw. simpl in Hkw.
    apply not_true_iff_false in Hkw. destruct Hkw.
    unfold command_keywords in Hin.
    repeat (apply elem_of_cons in Hin as [->|Hin];
            [rewrite Hsub; by rewrite ?orb_true_r|]).
    by apply elem_of_nil in Hin.
  - rewrite Hg in Hbl. simpl in Hbl. rewrite Hblack in Hbl.
    apply _is_group_blacklisted_spec in Hblack as [Hne _].
    by rewrite (bool_decide_eq_false_2 _ Hne) in Hbl.
  - by rewrite Hnone.
Qed.

Lemma auto_detect_stays_silent_witness :
  auto_detect_urls sample_py sample_tools sample_env sample_access sample_plugin
    (sample_event "see https://a.example/page" (Some "1001"))
    (quiet_run (in_order 1 0 1))
  = ([], sample_plugin, []).
Proof.
  apply auto_detect_stays_silent.
  right; right; right; right; left. exists "1001". by split.
Defined.

(** X12: when [auto_detect_urls] calls the analyzer for a URL, automatic
    analysis is on, the stripped message does not start with a slash, the
    event carries no command, the group of the event, if any, is not
    blacklisted, and the URL was extracted from the stripped message, is
    valid, passes the domain rules and was not in flight. The set
    [processing_urls] is left as it was found. *)
Theorem auto_detect_fetches_allowed_only py tools env acc self event run :
  let text := py_strip py (message_str event) in
  let '(_, self', log) := auto_detect_urls py tools env acc self event run in
  processing_urls self' = processing_urls self ∧
  ∀ u, Fetch u ∈ log →
    auto_analyze acc = true ∧
    String.prefix "/" text = false ∧
    has_command event = false ∧
    (∀ g, auto_group_id event = Some g → _is_group_blacklisted acc g = false) ∧
    u ∈ extract_urls tools text ∧ is_valid_url tools u = true ∧
    _is_domain_allowed py acc u = true ∧ u ∉ processing_urls self.
Proof.
  intros text. subst text. unfold auto_detect_urls.
  destruct (auto_analyze acc); simpl; [|by split; [|intros ? ?%elem_of_nil]].
  destruct (String.prefix "/" _); [by split; [|intros ? ?%elem_of_nil]|].
  destruct (has_command event); [by split; [|intros ? ?%elem_of_nil]|].
  match goal with
  | |- context [truthy (raw_text event) && ?b] =>
      destruct (truthy (raw_text event) && b);
        [by split; [|intros ? ?%elem_of_nil]|]
  end.
  destruct (truthy (auto_group_id event)
            && _is_group_blacklisted acc (default "" (auto_group_id event)))
    eqn:Hbl; [by split; [|intros ? ?%elem_of_nil]|].
  fold (allowed_urls_of py tools acc (py_strip py (message_str event))).
  destruct (allowed_urls_of _ _ _ _) as [|a0 as_] eqn:Hall;
    [by split; [|intros ? ?%elem_of_nil]|].
  pose proof (batch_fetch_admitted env self run (a0 :: as_)) as Hfetch.
  pose proof (batch_restores_processing_urls env self run (a0 :: as_)) as Hrel.
  destruct (_batch_process_urls env self run (a0 :: as_)) as [[out self'] log].
  simpl in *. split; [done|].
  intros u Hu. apply Hfetch, admitted_elem in Hu as [Hin Hfree].
  rewrite <- Hall, allowed_urls_of_elem in Hin.
  repeat split; try tauto.
  intros g Hg. rewrite Hg in Hbl. simpl in Hbl.
  destruct (_is_group_blacklisted acc g) eqn:Hb; [|done].
  apply _is_group_blacklisted_spec in Hb as [Hne _].
  by rewrite (bool_decide_eq_false_2 _ Hne) in Hbl.
Qed.

(** ** The delivery of the results *)

Lemma elem_of_concat_imap {A B} (f : nat → A → list B) (l : list A) (x : B) :
  x ∈ concat (imap f l) ↔ ∃ i a, l !! i = Some a ∧ x ∈ f i a.
Proof.
  rewrite list_elem_of_In, in_concat. split.
  - intros (ys & Hys & Hx). apply list_elem_of_In, elem_of_lookup_imap in Hys
      as (i & a & -> & Ha). exists i, a. by rewrite list_elem_of_In.
  - intros (i & a & Ha & Hx). exists (f i a). split.
    + by apply list_elem_of_In, elem_of_lookup_imap_2.
    + by apply list_elem_of_In.
Qed.

Lemma omap_concat_imap {A B C} (p : B → option C) (g : nat → A → C)
    (h : nat → A → list B) (l : list A) :
  (∀ i a, omap p (h i a) = g i a :: []) →
  omap p (concat (imap h l)) = imap g l.
Proof.
  revert g h. induction l as [|a l IH]; intros g h Hh; [done|].
  rewrite !imap_cons. cbn [concat]. rewrite omap_app, Hh. simpl. f_equal.
  apply IH. intros i b. apply Hh.
Qed.

Lemma length_concat_imap_le {A B} (h : nat → A → list B) (l : list A) lo hi :
  (∀ i a, (lo ≤ length (h i a) ≤ hi)%nat) →
  (lo * length l ≤ length (concat (imap h l)) ≤ hi * length l)%nat.
Proof.
  revert h. induction l as [|a l IH]; intros h Hh; [simpl; lia|].
  rewrite imap_cons. cbn [concat]. rewrite length_app. simpl.
  specialize (IH (h ∘ S) (λ i b, Hh (S i) b)). specialize (Hh 0%nat a). lia.
Qed.

Lemma lookup_concat_imap_pairs {A B C} (f : nat → A → list B) (p : B → C)
    (g : A → C) (l : list A) i a :
  (∀ j b, p <$> f j b !! 1%nat = Some (g b) ∧ length (f j b) = 2%nat) →
  l !! i = Some a →
  p <$> concat (imap f l) !! (1 + 2 * i)%nat = Some (g a).
Proof.
  revert f i. induction l as [|b l IH]; intros f i Hshape Hi; [done|].
  rewrite imap_cons. cbn [concat]. destruct (Hshape 0%nat b) as [H1 Hlen].
  destruct i as [|i]; simplify_eq/=.
  - rewrite lookup_app_l by lia. done.
  - rewrite lookup_app_r by lia. rewrite Hlen.
    replace (S (S (i + S (i + 0))) - 2)%nat with (S (i + (i + 0)))%nat by lia.
    apply (IH (f ∘ S)); [|done]. intros j c. apply Hshape.
Qed.

Lemma image_of_elem image_ok i r m :
  m ∈ image_of image_ok i r ↔
  ∃ shot, m = Image shot ∧ rd_screenshot r = Some shot ∧ shot ≠ "" ∧
    image_ok i = true.
Proof.
  unfold image_of. destruct (rd_screenshot r) as [shot|]; simpl.
  - destruct (bool_decide (shot = "")) eqn:Hs; simpl.
    + apply bool_decide_eq_true in Hs. rewrite elem_of_nil. naive_solver.
    + apply bool_decide_eq_false in Hs. destruct (image_ok i).
      * rewrite list_elem_of_singleton. naive_solver.
      * rewrite elem_of_nil. naive_solver.
  - rewrite elem_of_nil. naive_solver.
Qed.

Lemma image_of_plain image_ok i r : omap plain_text (image_of image_ok i r) = [].
Proof. unfold image_of. by destruct (_ && _). Qed.

Lemma image_of_length image_ok i r : (length (image_of image_ok i r) ≤ 1)%nat.
Proof. unfold image_of. destruct (_ && _); simpl; lia. Qed.

(** X13: outside a group, or with merged forwarding off,
    [_send_analysis_result] sends the text of every result exactly once and
    in the order of the results, each headed by its position when there are
    several; an image is sent only for a result with a non-empty screenshot
    whose temporary file could be written; nothing else is sent. *)
Theorem send_plain_sends_every_result acc event image_ok analysis_results :
  truthy (send_group_id event) && merge_forward_enabled acc = false →
  let messages := _send_analysis_result acc event image_ok analysis_results in
  let n := length analysis_results in
  omap plain_text messages = imap (result_text n) analysis_results ∧
  (∀ m, m ∈ messages →
     (∃ i r, analysis_results !! i = Some r ∧ m = Plain (result_text n i r)) ∨
     (∃ i r shot, analysis_results !! i = Some r ∧ m = Image shot ∧
        rd_screenshot r = Some shot ∧ shot ≠ "" ∧ image_ok i = true)) ∧
  (n ≤ length messages ≤ 2 * n)%nat.
Proof.
  intros Hmode messages n. subst messages n. unfold _send_analysis_result.
  rewrite Hmode. split; [|split].
  - apply omap_concat_imap. intros i r. simpl. by rewrite image_of_plain.
  - intros m Hm. apply elem_of_concat_imap in Hm as (i & r & Hr & Hm).
    apply elem_of_cons in Hm as [->|Hm]; [left; eauto|].
    apply image_of_elem in Hm as (shot & -> & ? & ? & ?). right.
    exists i, r, shot. done.
  - pose proof (length_concat_imap_le
      (λ i r, Plain (result_text (length analysis_results) i r)
              :: image_of image_ok i r) analysis_results 1 2) as Hlen.
    rewrite Nat.mul_1_l in Hlen. apply Hlen. intros i r. simpl.
    pose proof (image_of_length image_ok i r). lia.
Qed.

Lemma send_plain_sends_every_result_witness :
  omap plain_text
    (_send_analysis_result sample_access (sample_event "" (Some "77"))
       (λ _, true)
       [cached_entry;
        {| rd_url := "https://c.example"; rd_result := "summary";
           rd_screenshot := Some "bytes" |}])
  = ["第1/2个网页分析结果：" +:+ LF +:+ "cached summary";
     "第2/2个网页分析结果：" +:+ LF +:+ "summary"].
Proof.
  pose proof (send_plain_sends_every_result sample_access
                (sample_event "" (Some "77")) (λ _, true)
                [cached_entry;
                 {| rd_url := "https://c.example"; rd_result := "summary";
                    rd_screenshot := Some "bytes" |}] eq_refl) as (H & _).
  rewrite H. by vm_compute.
Defined.

(** X14: in a group with merged forwarding on, [_send_analysis_result] sends
    one merged message first, with a title node and two nodes per result in
    the order of the results, all under the sender's id, followed by images
    only. When the sender's id cannot be read, the results are not sent: the
    only message is the text with the error marker. *)
Theorem send_merged_sends_one_forward acc event image_ok analysis_results :
  truthy (send_group_id event) = true →
  merge_forward_enabled acc = true →
  let messages := _send_analysis_result acc event image_ok analysis_results in
  let n := length analysis_results in
  (∀ e, get_sender_id event = inl e →
     messages = [Plain ("❌ 发送分析结果失败: " +:+ str e)]) ∧
  (∀ uin, get_sender_id event = inr uin →
     ∃ nodes images,
       messages = Nodes nodes :: images ∧
       length nodes = (1 + 2 * n)%nat ∧
       (∀ nd, nd ∈ nodes → node_uin nd = uin) ∧
       (∀ i r, analysis_results !! i = Some r →
          node_text <$> nodes !! (2 + 2 * i)%nat = Some (rd_result r)) ∧
       (∀ m, m ∈ images →
          ∃ i r shot, analysis_results !! i = Some r ∧ m = Image shot ∧
            rd_screenshot r = Some shot ∧ shot ≠ "" ∧ image_ok i = true)).
Proof.
  intros Hgroup Hmerge messages n. subst messages n.
  unfold _send_analysis_result. rewrite Hgroup, Hmerge. simpl.
  split; [by intros e ->|]. intros uin ->.
  eexists _, _. split; [done|]. split; [|split; [|split]].
  - simpl. f_equal.
    pose proof (length_concat_imap_le (result_nodes uin) analysis_results 2 2)
      as Hlen.
    assert (∀ i a, (2 ≤ length (result_nodes uin i a) ≤ 2)%nat) as H2
      by (intros; simpl; lia).
    specialize (Hlen H2). lia.
  - intros nd Hnd. apply elem_of_cons in Hnd as [->|Hnd]; [done|].
    apply elem_of_concat_imap in Hnd as (i & r & _ & Hnd).
    unfold result_nodes in Hnd. set_solver.
  - intros i r Hr. change (2 + 2 * i)%nat with (S (1 + 2 * i)).
    rewrite lookup_cons_ne_0 by lia. simpl Nat.pred.
    apply (lookup_concat_imap_pairs (result_nodes uin) node_text rd_result
             analysis_results i r); [|done].
    intros j a. by split.
  - intros m Hm. apply elem_of_concat_imap in Hm as (i & r & Hr & Hm).
    apply image_of_elem in Hm as (shot & -> & ? & ? & ?).
    exists i, r, shot. done.
Qed.

Lemma send_merged_sends_one_forward_witness :
  let acc :=
    {| allowed_domains := []; blocked_domains := []; group_blacklist := [];
       auto_analyze := true; merge_forward_enabled := true;
       screenshot_format := "jpeg"; config_group_blacklist := "" |} in
  ∃ nodes,
    _send_analysis_result acc (sample_event "" (Some "77")) (λ _, true)
      [cached_entry]
    = [Nodes nodes] ∧ length nodes = 3%nat.
Proof.
  intros acc.
  destruct (send_merged_sends_one_forward acc (sample_event "" (Some "77"))
              (λ _, true) [cached_entry] eq_refl eq_refl) as [_ H].
  destruct (H "42" eq_refl) as (nodes & images & Hm & Hlen & _).
  exists nodes. split; [|done]. rewrite Hm. f_equal.
  by vm_compute in Hm; injection Hm as _ <-.
Defined.

(** ** The settings after [__init__] *)

(** X15: whatever the configuration holds, [__init__] leaves every numeric
    setting inside its range: the content length at 1000 or more, the timeout
    in 5..300, the retries and their delay in 0..10, the summary length in
    500..10000, the screenshot quality in 10..100, its width in 320..4096,
    its height in 240..4096 and its waiting time in 0..10000. *)
Theorem init_settings_within_bounds py config :
  let s := init_settings py config in
  1000 ≤ max_content_length s ∧
  5 ≤ timeout s ≤ 300 ∧
  0 ≤ retry_count s ≤ 10 ∧
  0 ≤ retry_delay s ≤ 10 ∧
  500 ≤ max_summary_length s ≤ 10000 ∧
  10 ≤ screenshot_quality s ≤ 100 ∧
  320 ≤ screenshot_width s ≤ 4096 ∧
  240 ≤ screenshot_height s ≤ 4096 ∧
  0 ≤ screenshot_wait_time s ≤ 10000.
Proof. simpl. repeat split; lia. Qed.

(** X16: the extraction types after [__init__] are all valid types and
    contain [meta]; every valid type on a line of the configured text is
    among them, and they hold nothing but configured lines, the default
    [title] and [content], and [meta]. *)
Theorem init_extract_types_valid py text :
  let types := init_extract_types py text in
  (∀ t, t ∈ types → t ∈ valid_extract_types) ∧
  "meta" ∈ types ∧
  (∀ line, line ∈ split_lines text →
     py_strip py line ∈ valid_extract_types → py_strip py line ∈ types) ∧
  (∀ t, t ∈ types →
     t ∈ ["title"; "content"; "meta"] ∨
     ∃ line, line ∈ split_lines text ∧ t = py_strip py line).
Proof.
  intros types. subst types. unfold init_extract_types.
  set (parsed := filter (λ t, t ≠ "") (py_strip py <$> split_lines text)).
  set (invalid := filter (λ t, t ∉ valid_extract_types) parsed).
  set (kept := if bool_decide (invalid ≠ []) then
                 filter (λ t, t ∈ valid_extract_types) parsed else parsed).
  assert (∀ t, t ∈ kept ↔ t ∈ parsed ∧ t ∈ valid_extract_types) as Hkept.
  { intros t. subst kept. case_bool_decide as Hinv.
    - by rewrite list_elem_of_filter, (comm and).
    - split; [|by intros [? _]]. intros Ht. split; [done|].
      destruct (decide (t ∈ valid_extract_types)) as [|Hn]; [done|].
      assert (t ∈ invalid) as Hin by by apply list_elem_of_filter.
      rewrite Hinv in Hin. by apply elem_of_nil in Hin. }
  assert (∀ t, t ∈ parsed ↔
            t ≠ "" ∧ ∃ line, line ∈ split_lines text ∧ t = py_strip py line)
    as Hparsed.
  { intros t. subst parsed. rewrite list_elem_of_filter, list_elem_of_fmap.
    naive_solver. }
  set (nonempty := if bool_decide (kept = []) then ["title"; "content"]
                   else kept).
  assert (∀ t, t ∈ nonempty → t ∈ valid_extract_types) as Hvalid.
  { intros t. subst nonempty. case_bool_decide.
    - unfold valid_extract_types. set_solver.
    - intros Ht. by apply Hkept in Ht as [_ ?]. }
  assert (∀ t, t ∈ kept → t ∈ nonempty) as Hsub.
  { intros t Ht. subst nonempty. case_bool_decide as He; [|done].
    rewrite He in Ht. by apply elem_of_nil in Ht. }
  assert (∀ t, t ∈ nonempty →
            t ∈ ["title"; "content"; "meta"] ∨
            ∃ line, line ∈ split_lines text ∧ t = py_strip py line) as Hfrom.
  { intros t. subst nonempty. case_bool_decide.
    - intros Ht. left. set_solver.
    - intros Ht. right. apply Hkept in Ht as [Ht _].
      by apply Hparsed in Ht as [_ ?]. }
  clearbody nonempty kept parsed. case_bool_decide as Hmeta.
  - split; [|split; [|split]].
    + intros t [Ht| ->%list_elem_of_singleton]%elem_of_app; [by apply Hvalid|].
      unfold valid_extract_types. set_solver.
    + apply elem_of_app. right. by apply list_elem_of_singleton.
    + intros line Hline Hv. apply elem_of_app. left. apply Hsub, Hkept.
      split; [|done]. apply Hparsed. split; [|eauto].
      intros He. rewrite He in Hv. unfold valid_extract_types in Hv.
      set_solver.
    + intros t [Ht| ->%list_elem_of_singleton]%elem_of_app; [by apply Hfrom|].
      left. set_solver.
  - split; [done|]. split; [done|]. split; [|done].
    intros line Hline Hv. apply Hsub, Hkept.
    split; [|done]. apply Hparsed. split; [|eauto].
    intros He. rewrite He in Hv. unfold valid_extract_types in Hv. set_solver.
Qed.

(** X17: [__init__] keeps a configured screenshot format or target language
    whose lower case is supported and replaces any other by the default, so
    the format is always [jpeg] or [png] and the language one of the ten
    supported ones. *)
Theorem init_formats_are_supported py config :
  let format := screenshot_format (init_access py config) in
  let language := target_language (init_settings py config) in
  let configured_format :=
    lower py (default "jpeg"
      (sc_analysis_settings config ≫= as_screenshot_format)) in
  let configured_language :=
    lower py (default "zh" (sc_target_language config)) in
  format ∈ ["jpeg"; "png"] ∧
  language ∈ valid_languages ∧
  (configured_format ∈ ["jpeg"; "png"] → format = configured_format) ∧
  (configured_format ∉ ["jpeg"; "png"] → format = "jpeg") ∧
  (configured_language ∈ valid_languages → language = configured_language) ∧
  (configured_language ∉ valid_languages → language = "zh").
Proof.
  simpl. unfold init_screenshot_format.
  destruct (sc_analysis_settings config) as [a|]; simpl.
  - repeat case_bool_decide; repeat split; try done;
      try (by apply dec_stable); try set_solver.
    all: unfold valid_languages; set_solver.
  - repeat case_bool_decide; repeat split; try done;
      try (by apply dec_stable); try set_solver.
    all: unfold valid_languages; set_solver.
Qed.

(** X18: the proxy after [__init__] is either empty or the configured one;
    it is the configured one exactly when that is empty or [urlparse] finds
    both a scheme and a network location in it, and it is dropped when
    [urlparse] raises or finds one of the two empty. *)
Theorem init_proxy_is_well_formed py config :
  let configured := default "" (sc_proxy config) in
  let p := proxy (init_settings py config) in
  (p = "" ∨ p = configured) ∧
  (p = configured ↔
   configured = "" ∨
   ∃ scheme netloc, urlparse py configured = inr (scheme, netloc) ∧
     scheme ≠ "" ∧ netloc ≠ "").
Proof.
  simpl. unfold init_proxy. generalize (default "" (sc_proxy config)) as c.
  intros c. case_bool_decide as Hp.
  - destruct (urlparse py c) as [e|[scheme netloc]].
    + split; [by left|]. split; [by intros <-|].
      intros [?|(? & ? & ? & _)]; done.
    + destruct (bool_decide (scheme ≠ "")) eqn:Hs,
        (bool_decide (netloc ≠ "")) eqn:Hn; simpl.
      * apply bool_decide_eq_true in Hs, Hn.
        split; [by right|]. split; [|done]. right. eauto.
      * apply bool_decide_eq_false in Hn.
        split; [by left|]. split; [by intros <-|].
        intros [?|(? & ? & [= <- <-] & ? & ?)]; done.
      * apply bool_decide_eq_false in Hs.
        split; [by left|]. split; [by intros <-|].
        intros [?|(? & ? & [= <- <-] & ? & ?)]; done.
      * apply bool_decide_eq_false in Hs.
        split; [by left|]. split; [by intros <-|].
        intros [?|(? & ? & [= <- <-] & ? & ?)]; done.
  - split; [by right|]. split; [by left|done].
Qed.
